(** * VPP resource platform: the aggregation pipeline, the fetch and
      registration fallbacks and the display masks of [src/App.tsx]

    JavaScript strings are sequences of UTF-16 code units and JavaScript
    numbers are IEEE-754 binary64 values; both are modelled as such, the
    numbers through the Standard Library's [SpecFloat]. *)

From Stdlib Require Import List ZArith Bool Lia Permutation Sorted.
From Stdlib Require Import Floats.SpecFloat.
Import ListNotations.

Local Open Scope Z_scope.

(** ** JavaScript strings: lists of UTF-16 code units *)

Module JsString.

Definition code_unit := Z.
Definition jsstring := list code_unit.

(** [!s] for a string: only the empty string is falsy. *)
Definition is_falsy (s : jsstring) : bool :=
  match s with [] => true | _ => false end.

(** [s || ''] *)
Definition or_empty (s : jsstring) : jsstring :=
  if is_falsy s then [] else s.

(** [s.charAt(i)]: the one-unit string at index [i], or the empty string. *)
Definition charAt (s : jsstring) (i : nat) : jsstring :=
  match nth_error s i with
  | Some u => [u]
  | None => []
  end.

(** [a === b] on strings: the same code units. *)
Fixpoint eqb (a b : jsstring) : bool :=
  match a, b with
  | [], [] => true
  | u :: a', v :: b' => (u =? v) && eqb a' b'
  | _, _ => false
  end.

Fixpoint starts_with (needle s : jsstring) : bool :=
  match needle, s with
  | [], _ => true
  | u :: needle', v :: s' => (u =? v) && starts_with needle' s'
  | _ :: _, [] => false
  end.

(** [s.includes(needle)]: [needle] occurs at some index of [s]. *)
Fixpoint includes (s needle : jsstring) : bool :=
  starts_with needle s ||
  match s with
  | [] => false
  | _ :: s' => includes s' needle
  end.

Definition asterisk : code_unit := 42.
Definition hyphen : code_unit := 45.

(** [\d] without the unicode flag: the ASCII digits 0 to 9. *)
Definition is_digit (u : code_unit) : bool := (48 <=? u) && (u <=? 57).

End JsString.
Import JsString.

(** ** JavaScript numbers: IEEE-754 binary64 *)

Module JsNumber.

Definition number := spec_float.

Definition prec : Z := 53.
Definition emax : Z := 1024.

Definition NaN : number := S754_nan.
Definition zero : number := S754_zero false.
Definition Infinity : number := S754_infinity false.

(** [x + y] and [x - y], rounded to nearest, ties to even. *)
Definition add (x y : number) : number := SFadd prec emax x y.
Definition sub (x y : number) : number := SFsub prec emax x y.

(** [x > 0] *)
Definition is_positive (x : number) : bool := SFltb zero x.

Definition is_nan (x : number) : bool :=
  match x with S754_nan => true | _ => false end.

(** [!x] for a number: [+0], [-0] and [NaN] are falsy. *)
Definition is_falsy (x : number) : bool :=
  match x with
  | S754_nan | S754_zero _ => true
  | _ => false
  end.

(** [x || 0] *)
Definition or_zero (x : number) : number :=
  if is_falsy x then zero else x.

(** A well-formed binary64 that is neither an infinity nor [NaN]. *)
Definition is_finite (x : number) : bool :=
  match x with
  | S754_zero _ => true
  | S754_finite _ _ _ => valid_binary prec emax x
  | _ => false
  end.

(** SameValueZero of ECMAScript: [NaN] is itself and the two zeros are one. *)
Definition same_value_zero (x y : number) : Prop :=
  x = y \/ (exists s t, x = S754_zero s /\ y = S754_zero t).

(** The exact value of a finite number is [(-1)^s * m * 2^e]; [scaled x ez]
    is that value times [2^-ez], an integer when [ez] is at most [e]. *)
Definition exponent (x : number) : Z :=
  match x with S754_finite _ _ e => e | _ => 0 end.

Definition scaled (x : number) (ez : Z) : Z :=
  match x with
  | S754_finite s m e => cond_Zopp s (Zpos m) * 2 ^ (e - ez)
  | _ => 0
  end.

(** [x <= y] decided on the exact values, the infinities at both ends and
    false on [NaN]; the proofs go through it and show that it is the
    comparison [SFleb] of the library on well-formed numbers. *)
Definition leb (x y : number) : bool :=
  match x, y with
  | S754_nan, _ | _, S754_nan => false
  | S754_infinity true, _ => true
  | _, S754_infinity false => true
  | S754_infinity false, _ => false
  | _, S754_infinity true => false
  | _, _ =>
      let ez := Z.min (exponent x) (exponent y) in
      scaled x ez <=? scaled y ez
  end.

(** [x >= y], the IEEE-754 comparison: false when either side is [NaN]. *)
Definition ge (x y : number) : Prop := SFleb y x = true.

(** A well-formed binary64: a finite one has the one mantissa and exponent
    that the format gives its value. *)
Definition valid (x : number) : bool := valid_binary prec emax x.

Definition canonical (m : positive) (e : Z) : Prop :=
  fexp prec emax (Zpos (Pos.size m) + e) = e.

(** The least exponent of a binary64, that of the subnormals: -1074. *)
Definition emin : Z := SpecFloat.emin prec emax.

(** A number that takes part in comparisons: not [NaN], and when finite
    with an exponent a binary64 can have. *)
Definition comparable (x : number) : Prop :=
  match x with
  | S754_nan => False
  | S754_finite _ _ e => emin <= e
  | _ => True
  end.

(** The binary64 of an integer, and the mantissa of that of a positive
    integer below 2^53, whose binary digits are padded to 53. *)
Definition whole (n : Z) : number := binary_normalize prec emax n 0 false.

Definition integer_mantissa (p : positive) : positive :=
  Z.to_pos (Zpos p * 2 ^ (prec - Zpos (Pos.size p))).

(** The double nearest to the decimal [m / 10^k], for writing literals such
    as [0.1] ([decimal 1 1]) and [2.5] ([decimal 25 1]). *)
Definition decimal (m : positive) (k : nat) : number :=
  SFdiv prec emax (S754_finite false m 0)
                  (S754_finite false (Z.to_pos (10 ^ Z.of_nat k)) 0).

End JsNumber.
Import JsNumber.

(** ** Values that reach the shell untyped *)

(** A field of a remote row, or of a record typed [any], where a number is
    expected. *)
Inductive jsval :=
  | JSundefined
  | JSnull
  | JSnumber (x : number)
  | JSstring (s : jsstring).

(** A nullable text column. *)
Definition nullable := option jsstring.

(** [x || ''] on a nullable text. *)
Definition text_or_empty (x : nullable) : jsstring :=
  match x with
  | Some s => or_empty s
  | None => []
  end.

(** ** Display masks *)

(** [maskName], App.tsx lines 12-15. *)
Definition maskName (name : jsstring) : jsstring :=
  if JsString.is_falsy name then [] else charAt name 0 ++ [asterisk; asterisk].

(** The four placeholders of ['$1****$2']. *)
Definition mask4 : jsstring := [asterisk; asterisk; asterisk; asterisk].

(** The regular expression [/(\d{3})\d{4}(\d{4})/] tried at the start of [s]:
    eleven digits, of which the first three and the last four are captured;
    the result is the two groups and what follows the match. *)
Definition match_phone_here (s : jsstring)
  : option (jsstring * jsstring * jsstring) :=
  if (11 <=? length s)%nat && forallb is_digit (firstn 11 s)
  then Some (firstn 3 s, firstn 4 (skipn 7 s), skipn 11 s)
  else None.

(** [s.replace(/(\d{3})\d{4}(\d{4})/, '$1****$2')]: the leftmost match is
    replaced, the text around it is kept. *)
Fixpoint replace_phone (s : jsstring) : jsstring :=
  match match_phone_here s with
  | Some (g1, g2, rest) =>
      g1 ++ mask4 ++ g2 ++ rest
  | None =>
      match s with
      | [] => []
      | u :: s' => u :: replace_phone s'
      end
  end.

(** [maskPhone], App.tsx lines 18-21. *)
Definition maskPhone (phone : jsstring) : jsstring :=
  if JsString.is_falsy phone then [] else replace_phone phone.

(** ** Data model (the records of [./types]) *)

Record Customer := mkCustomer {
  id : jsstring;
  company_name : jsstring;
  province : jsstring;
  city : jsstring;
  capacity_mw : jsval;
  demand_type : jsstring;
  industry : jsstring;
  contact : jsstring;
  phone : jsstring
}.

(** The value kept per city in [cityMap]. [site_count] only ever counts
    elements of one array, whose length is below 2^32, so that its double is
    always an exact natural number. *)
Record Entry := mkEntry {
  site_count : nat;
  pv_mw : number;
  storage_mw : number;
  ev_mw : number;
  other_mw : number;
  total_mw : number
}.

Module RegionStat.
Record t := mk {
  city : jsstring;
  site_count : nat;
  pv_mw : number;
  storage_mw : number;
  ev_mw : number;
  other_mw : number;
  total_mw : number
}.
End RegionStat.

Module ChartDataPoint.
Record t := mk {
  name : jsstring;
  pv : number;
  storage : number;
  ev : number;
  other : number
}.
End ChartDataPoint.

(** ** [Map<string, Entry>]: keys in insertion order *)

Module CityMap.

Definition t := list (jsstring * Entry).

Fixpoint get (m : t) (k : jsstring) : option Entry :=
  match m with
  | [] => None
  | (k', v) :: m' => if JsString.eqb k' k then Some v else get m' k
  end.

Definition has (m : t) (k : jsstring) : bool :=
  match get m k with Some _ => true | None => false end.

(** [set] keeps the position of a key already present and appends a new one. *)
Fixpoint set (m : t) (k : jsstring) (v : Entry) : t :=
  match m with
  | [] => [(k, v)]
  | (k', v') :: m' =>
      if JsString.eqb k' k then (k', v) :: m' else (k', v') :: set m' k v
  end.

Definition entries (m : t) : list (jsstring * Entry) := m.

End CityMap.

(** ** [Array.prototype.sort(comparefn)]

    ECMAScript sorts stably, placing [a] after [b] when [comparefn(a, b)] is
    positive; a [NaN] result counts as [+0]. With a consistent comparator the
    result is the one stable sorted arrangement, computed here by insertion.
    The comparators of lines 80 and 89 are consistent as long as no sort key
    is [NaN]. With a [NaN] key they are not, ECMAScript then leaves the order
    to the engine, and the insertion below stands for one possible engine
    only: what is proved about the order of a sorted array holds for the
    program where its premises keep [NaN] out of the keys. *)

Section Sort.
Context {A : Type}.
Variable comparefn : A -> A -> number.

Fixpoint sort_insert (a : A) (sorted : list A) : list A :=
  match sorted with
  | [] => [a]
  | b :: rest =>
      if is_positive (comparefn a b) then b :: sort_insert a rest
      else a :: b :: rest
  end.

Fixpoint sort (l : list A) : list A :=
  match l with
  | [] => []
  | a :: l' => sort_insert a (sort l')
  end.

End Sort.

(** ** The aggregation effect, App.tsx lines 35-94 *)

Definition solar_marker : jsstring := [20809; 20239].
Definition storage_marker : jsstring := [20648; 33021].
Definition charging_marker : jsstring := [20805; 30005].

(** The ECMAScript functions that read a number from text, left abstract:
    [StringToNumber] is the string case of [Number(v)]. *)
Class Builtins := {
  StringToNumber : jsstring -> number;
  parseFloat : jsstring -> number
}.

Section Aggregation.

Context `{Builtins}.

(** [Number(v)] *)
Definition Number (v : jsval) : number :=
  match v with
  | JSundefined => NaN
  | JSnull => zero
  | JSnumber x => x
  | JSstring s => StringToNumber s
  end.

(** The object of line 58. *)
Definition new_entry : Entry := mkEntry 0 zero zero zero zero zero.

(** Lines 62-73: what [forEach] does to the entry of the customer's city. *)
Definition bump (entry : Entry) (type : jsstring) (cap : number) : Entry :=
  let site_count := S (site_count entry) in
  let total_mw := add (total_mw entry) cap in
  if includes type solar_marker then
    mkEntry site_count (add (pv_mw entry) cap) (storage_mw entry)
            (ev_mw entry) (other_mw entry) total_mw
  else if includes type storage_marker then
    mkEntry site_count (pv_mw entry) (add (storage_mw entry) cap)
            (ev_mw entry) (other_mw entry) total_mw
  else if includes type charging_marker then
    mkEntry site_count (pv_mw entry) (storage_mw entry)
            (add (ev_mw entry) cap) (other_mw entry) total_mw
  else
    mkEntry site_count (pv_mw entry) (storage_mw entry)
            (ev_mw entry) (add (other_mw entry) cap) total_mw.

(** Lines 54 and 55. *)
Definition cap_of (cust : Customer) : number :=
  or_zero (Number (capacity_mw cust)).
Definition type_of (cust : Customer) : jsstring :=
  or_empty (demand_type cust).

(** The body of [customers.forEach], lines 52-74; the entry object is shared
    with the map, so that updating it updates the map. *)
Definition accumulate (cityMap : CityMap.t) (cust : Customer) : CityMap.t :=
  let city := city cust in
  let cap := cap_of cust in
  let type := type_of cust in
  let cityMap :=
    if negb (CityMap.has cityMap city) then CityMap.set cityMap city new_entry
    else cityMap in
  match CityMap.get cityMap city with
  | None => cityMap
  | Some entry => CityMap.set cityMap city (bump entry type cap)
  end.

Definition group_by_city (customers : list Customer) : CityMap.t :=
  fold_left accumulate customers [].

Definition to_region_stat (e : jsstring * Entry) : RegionStat.t :=
  let '(city, data) := e in
  RegionStat.mk city (site_count data) (pv_mw data) (storage_mw data)
                (ev_mw data) (other_mw data) (total_mw data).

Definition to_chart_point (e : jsstring * Entry) : ChartDataPoint.t :=
  let '(city, data) := e in
  ChartDataPoint.mk city (pv_mw data) (storage_mw data) (ev_mw data)
                    (other_mw data).

(** [(a, b) => b.total_mw - a.total_mw] *)
Definition by_total_desc (a b : RegionStat.t) : number :=
  sub (RegionStat.total_mw b) (RegionStat.total_mw a).

Definition chart_sum (p : ChartDataPoint.t) : number :=
  add (add (add (ChartDataPoint.pv p) (ChartDataPoint.storage p))
           (ChartDataPoint.ev p))
      (ChartDataPoint.other p).

(** [(a, b) => (b.pv + b.storage + b.ev + b.other) - (a.pv + ... )] *)
Definition by_sum_desc (a b : ChartDataPoint.t) : number :=
  sub (chart_sum b) (chart_sum a).

Definition newRegionStats (customers : list Customer) : list RegionStat.t :=
  match customers with
  | [] => []
  | _ =>
      sort by_total_desc
           (map to_region_stat (CityMap.entries (group_by_city customers)))
  end.

Definition newChartData (customers : list Customer) : list ChartDataPoint.t :=
  match customers with
  | [] => []
  | _ =>
      sort by_sum_desc
           (map to_chart_point (CityMap.entries (group_by_city customers)))
  end.

End Aggregation.

(** ** The application shell, App.tsx lines 97-191 *)

(** A row of the remote collection, as [select('*')] returns it. *)
Record Row := mkRow {
  row_id : jsstring;
  row_company_name : jsstring;
  row_province : jsstring;
  row_city : jsstring;
  row_capacity_mw : jsval;
  row_demand_type : jsstring;
  row_industry : nullable;
  row_contact_name : nullable;
  row_contact_phone : nullable
}.

(** What awaiting a remote call gives: the call throws, or resolves to a
    [{ data, error }] pair in which either part may be null. *)
Inductive Response (A : Type) :=
  | Threw
  | Resolved (data : option A) (error : option jsstring).
Arguments Threw {A}.
Arguments Resolved {A} data error.

(** The payload of the registration form ([FormData] of [./types]). *)
Record FormData := mkFormData {
  companyName : jsstring;
  province_field : jsstring;
  city_field : jsstring;
  address : jsstring;
  capacity : jsstring;
  demandType : jsstring;
  demandTypeOther : jsstring;
  industryType : jsstring;
  contactName : jsstring;
  contactPhone : jsstring;
  contactEmail : jsstring
}.

(** [dbPayload], lines 146-157. *)
Record Payload := mkPayload {
  p_company_name : jsstring;
  p_province : jsstring;
  p_city : jsstring;
  p_address : jsstring;
  p_capacity_mw : number;
  p_demand_type : jsstring;
  p_industry : jsstring;
  p_contact_name : jsstring;
  p_contact_phone : jsstring;
  p_contact_email : jsstring
}.

(** The state the shell owns; [regionStats] and [chartData] are recomputed
    from [customers] by the aggregation effect. *)
Record AppState := mkAppState {
  customers : list Customer;
  loading : bool;
  alerts : nat
}.

Definition other_type : jsstring := [20854; 20182].

Section Shell.

Context `{Builtins}.
(** [MOCK_CUSTOMERS] of [./constants]. *)
Variable MOCK_CUSTOMERS : list Customer.

(** The object literal of [data.map], lines 115-125. *)
Definition map_row (d : Row) : Customer :=
  mkCustomer (row_id d) (row_company_name d) (row_province d) (row_city d)
             (JSnumber (Number (row_capacity_mw d)))
             (row_demand_type d)
             (text_or_empty (row_industry d))
             (text_or_empty (row_contact_name d))
             (text_or_empty (row_contact_phone d)).

(** [fetchCustomers], lines 102-138, given what the remote [list()] did. *)
Definition fetchCustomers (res : Response (list Row)) (st : AppState)
  : AppState :=
  let customers :=
    match res with
    | Threw => MOCK_CUSTOMERS
    | Resolved _ (Some _) => MOCK_CUSTOMERS
    | Resolved data None =>
        match data with
        | Some ((_ :: _) as rows) => map map_row rows
        | _ => MOCK_CUSTOMERS
        end
    end in
  mkAppState customers false (alerts st).

(** [updateLocalState], lines 178-191; [random_id] is what
    [Math.random().toString()] returned. *)
Definition updateLocalState (random_id : jsstring) (payload : Payload)
    (st : AppState) : AppState :=
  let newCustomer :=
    mkCustomer random_id (p_company_name payload) (p_province payload)
               (p_city payload) (JSnumber (p_capacity_mw payload))
               (p_demand_type payload) (p_industry payload)
               (p_contact_name payload) (p_contact_phone payload) in
  mkAppState (newCustomer :: customers st) (loading st) (alerts st).

Definition alert (st : AppState) : AppState :=
  mkAppState (customers st) (loading st) (S (alerts st)).

(** Lines 141-157 of [handleNewRegistration]. *)
Definition dbPayload (data : FormData) : Payload :=
  let capacity := or_zero (parseFloat (capacity data)) in
  let demandTypeString :=
    if JsString.eqb (demandType data) other_type
       && negb (JsString.is_falsy (demandTypeOther data))
    then other_type ++ [hyphen] ++ demandTypeOther data
    else demandType data in
  mkPayload (companyName data) (province_field data) (city_field data)
            (address data) capacity demandTypeString (industryType data)
            (contactName data) (contactPhone data) (contactEmail data).

(** [handleNewRegistration], lines 140-176, given what the remote [insert()]
    did, what the [list()] of the refetch did and the random identifier. *)
Definition handleNewRegistration (inserted : Response unit)
    (refetched : Response (list Row)) (random_id : jsstring)
    (data : FormData) (st : AppState) : AppState :=
  match inserted with
  | Resolved _ None => fetchCustomers refetched st
  | Resolved _ (Some _) | Threw =>
      alert (updateLocalState random_id (dbPayload data) st)
  end.

End Shell.

(** ** Vocabulary of the properties *)

(** The entry of city [k] before a customer of that city is accumulated: the
    one in the map, or the fresh one that line 58 stores. *)
Definition entry_before (m : CityMap.t) (k : jsstring) : Entry :=
  match CityMap.get m k with
  | Some e => e
  | None => new_entry
  end.

(** The four demand categories, and the one a demand type falls in: the
    first of solar, storage and charging whose marker it contains, else
    other. *)
Inductive Category := Solar | Storage | Charging | Other.

Definition category_of (type : jsstring) : Category :=
  if includes type solar_marker then Solar
  else if includes type storage_marker then Storage
  else if includes type charging_marker then Charging
  else Other.

Definition category_eqb (a b : Category) : bool :=
  match a, b with
  | Solar, Solar | Storage, Storage | Charging, Charging | Other, Other => true
  | _, _ => false
  end.

(** The sum an entry keeps for a category. *)
Definition category_mw (cat : Category) (e : Entry) : number :=
  match cat with
  | Solar => pv_mw e
  | Storage => storage_mw e
  | Charging => ev_mw e
  | Other => other_mw e
  end.

Definition stat_entry (r : RegionStat.t) : Entry :=
  mkEntry (RegionStat.site_count r) (RegionStat.pv_mw r)
          (RegionStat.storage_mw r) (RegionStat.ev_mw r)
          (RegionStat.other_mw r) (RegionStat.total_mw r).

(** [pv_mw + storage_mw + ev_mw + other_mw], added from left to right. *)
Definition four_sum (e : Entry) : number :=
  add (add (add (pv_mw e) (storage_mw e)) (ev_mw e)) (other_mw e).

(** The chart point with the values of a region stat. *)
Definition stat_point (r : RegionStat.t) : ChartDataPoint.t :=
  ChartDataPoint.mk (RegionStat.city r) (RegionStat.pv_mw r)
                    (RegionStat.storage_mw r) (RegionStat.ev_mw r)
                    (RegionStat.other_mw r).

(** The sites counted in a map, and in a list of region stats. *)
Definition sites (m : CityMap.t) : nat :=
  list_sum (map (fun p => site_count (snd p)) m).

Definition stat_sites (stats : list RegionStat.t) : nat :=
  list_sum (map RegionStat.site_count stats).


Definition sum_Z (ns : list Z) : Z := fold_right Z.add 0 ns.

Section Reading.

Context `{Builtins}.

(** The customers of city [k], in input order. *)
Definition customers_of (k : jsstring) (l : list Customer) : list Customer :=
  filter (fun c => JsString.eqb (city c) k) l.

Definition in_category (cat : Category) (c : Customer) : bool :=
  category_eqb (category_of (type_of c)) cat.

(** The sum of the coerced capacities of [cs], added one after the other to
    0 as the loop does. *)
Definition sum_caps (cs : list Customer) : number :=
  fold_left add (map cap_of cs) zero.

(** One customer after the other applied to an entry. *)
Definition bump_all (cs : list Customer) (e : Entry) : Entry :=
  fold_left (fun e c => bump e (type_of c) (cap_of c)) cs e.

End Reading.

(** The remote call failed: it threw, or resolved with an error. *)
Definition failed {A} (res : Response A) : Prop :=
  match res with
  | Threw => True
  | Resolved _ (Some _) => True
  | Resolved _ None => False
  end.

(** The remote [list()] resolved without an error and without rows. *)
Definition empty_result (res : Response (list Row)) : Prop :=
  match res with
  | Resolved None None => True
  | Resolved (Some []) None => True
  | _ => False
  end.

(** [s] has eleven consecutive decimal digits somewhere. *)
Definition contains_digit_run (s : jsstring) : Prop :=
  exists pre d post,
    s = pre ++ d ++ post /\ length d = 11%nat /\ forallb is_digit d = true.

(** An instance of the builtins for running examples: unsigned decimal
    integers are read as ECMAScript reads them and everything else is [NaN]
    (ECMAScript accepts more: signs, fractions, exponents, [Infinity],
    surrounding white space, and [StringToNumber] reads the empty string as
    [+0]). *)
Fixpoint digits_value (acc : Z) (s : jsstring) : option Z :=
  match s with
  | [] => Some acc
  | u :: s' =>
      if is_digit u then digits_value (10 * acc + (u - 48)) s' else None
  end.

Definition read_integer (s : jsstring) : number :=
  match s with
  | [] => NaN
  | _ =>
      match digits_value 0 s with
      | Some n => whole n
      | None => NaN
      end
  end.

Definition integer_builtins : Builtins :=
  {| StringToNumber := fun s => match s with [] => zero | _ => read_integer s end;
     parseFloat := read_integer |}.

(** ** Sample data *)

Definition hangzhou : jsstring := [26477; 24030].
Definition ningbo : jsstring := [23425; 27874].

Definition no_capacity_customer : Customer :=
  mkCustomer [49] [] [] hangzhou JSundefined solar_marker [] [] [].

(** "13800138000", and the same number after the country code "86". *)
Definition phone_11 : jsstring := [49; 51; 56; 48; 48; 49; 51; 56; 48; 48; 48].
Definition phone_with_country_code : jsstring := [56; 54] ++ phone_11.

Definition sample_mock : list Customer :=
  [mkCustomer [49] [] [] hangzhou (JSnumber (decimal 25 1)) solar_marker [] [] []].

Definition sample_state : AppState := mkAppState [] true 0.

Definition sample_form : FormData :=
  mkFormData [] [] ningbo [] [49; 50] other_type [] [] [] phone_11 [].

Definition row_without_capacity : Row :=
  mkRow [49] [] [] hangzhou JSundefined solar_marker None None None.

(** Cities A, B and C with capacities 10, 50 and 30. *)
Definition three_cities : list Customer :=
  [mkCustomer [49] [] [] [65] (JSnumber (decimal 10 0)) solar_marker [] [] [];
   mkCustomer [50] [] [] [66] (JSnumber (decimal 50 0)) storage_marker [] [] [];
   mkCustomer [51] [] [] [67] (JSnumber (decimal 30 0)) charging_marker [] [] []].

(** City A with 0.1 MW solar, 0.2 MW storage and 0.4 MW solar. *)
Definition rounding_city : list Customer :=
  [mkCustomer [49] [] [] [65] (JSnumber (decimal 1 1)) solar_marker [] [] [];
   mkCustomer [50] [] [] [65] (JSnumber (decimal 2 1)) storage_marker [] [] [];
   mkCustomer [51] [] [] [65] (JSnumber (decimal 4 1)) solar_marker [] [] []].

(** City B with 0.7 MW solar, followed by the customers of city A. *)
Definition rounding_customers : list Customer :=
  mkCustomer [48] [] [] [66] (JSnumber (decimal 7 1)) solar_marker [] [] []
  :: rounding_city.

(** One site of Ningbo with 50 MW of storage. *)
Definition one_site : list Customer :=
  [mkCustomer [50] [] [] ningbo (JSnumber (decimal 50 0)) storage_marker [] [] []].

Definition one_site_stat : RegionStat.t :=
  RegionStat.mk ningbo 1 zero (decimal 50 0) zero zero (decimal 50 0).

(** The solar-storage pilot of Hangzhou, 1.5 MW. *)
Definition pilot_customer : Customer :=
  mkCustomer [50] [] [] hangzhou (JSnumber (decimal 15 1))
             [20809; 20239; 45; 20648; 33021; 35797; 28857] [] [] [].

(** ** The remote store client, supabaseClient lines 1-32 *)

(** The two places a build-time variable can come from: [import.meta.env]
    and [process.env], either of which may not exist; a variable they hold
    is a string. *)
Record Environment := mkEnvironment {
  meta_env : option (jsstring -> nullable);
  process_env : option (jsstring -> nullable)
}.

(** [env && env[key]], when truthy. *)
Definition truthy_entry (env : option (jsstring -> nullable)) (key : jsstring)
  : option jsstring :=
  match env with
  | Some e =>
      match e key with
      | Some v => if JsString.is_falsy v then None else Some v
      | None => None
      end
  | None => None
  end.

(** [getEnvVar], lines 5-15. *)
Definition getEnvVar (env : Environment) (key : jsstring) : jsstring :=
  match truthy_entry (meta_env env) key with
  | Some v => v
  | None =>
      match truthy_entry (process_env env) key with
      | Some v => v
      | None => []
      end
  end.

Definition VITE_SUPABASE_URL : jsstring :=
  [86; 73; 84; 69; 95; 83; 85; 80; 65; 66; 65; 83; 69; 95; 85; 82; 76].
Definition VITE_SUPABASE_ANON_KEY : jsstring :=
  [86; 73; 84; 69; 95; 83; 85; 80; 65; 66; 65; 83; 69; 95; 65; 78; 79; 78; 95;
   75; 69; 89].
Definition http : jsstring := [104; 116; 116; 112].
Definition placeholder_url : jsstring :=
  [104; 116; 116; 112; 115; 58; 47; 47; 112; 108; 97; 99; 101; 104; 111; 108;
   100; 101; 114; 46; 115; 117; 112; 97; 98; 97; 115; 101; 46; 99; 111].
Definition placeholder_key : jsstring :=
  [112; 108; 97; 99; 101; 104; 111; 108; 100; 101; 114; 45; 107; 101; 121].

(** Lines 23 and 24. *)
Definition supabaseUrl (env : Environment) : jsstring :=
  getEnvVar env VITE_SUPABASE_URL.
Definition supabaseKey (env : Environment) : jsstring :=
  getEnvVar env VITE_SUPABASE_ANON_KEY.

(** Lines 29 and 30: what [createClient] is given. *)
Definition validUrl (env : Environment) : jsstring :=
  if negb (JsString.is_falsy (supabaseUrl env))
     && starts_with http (supabaseUrl env)
  then supabaseUrl env else placeholder_url.

Definition validKey (env : Environment) : jsstring :=
  if negb (JsString.is_falsy (supabaseKey env)) then supabaseKey env
  else placeholder_key.

(** ** The shell over time *)

(** The state of lines 24-32 before any effect has run. *)
Definition initial_state : AppState := mkAppState [] true 0.

(** What can change the customer set: the [list()] of the mount effect
    (line 99) settles, or a submission of the registration form settles. *)
Inductive Event :=
  | Mounted (res : Response (list Row))
  | Submitted (inserted : Response unit) (refetched : Response (list Row))
              (random_id : jsstring) (data : FormData).

Definition is_failed {A} (res : Response A) : bool :=
  match res with
  | Threw => true
  | Resolved _ (Some _) => true
  | Resolved _ None => false
  end.

Definition failed_submission (ev : Event) : bool :=
  match ev with
  | Mounted _ => false
  | Submitted inserted _ _ _ => is_failed inserted
  end.

Section Trace.

Context `{Builtins}.
Variable MOCK_CUSTOMERS : list Customer.

Definition step (st : AppState) (ev : Event) : AppState :=
  match ev with
  | Mounted res => fetchCustomers MOCK_CUSTOMERS res st
  | Submitted inserted refetched random_id data =>
      handleNewRegistration MOCK_CUSTOMERS inserted refetched random_id data st
  end.

Definition run (events : list Event) (st : AppState) : AppState :=
  fold_left step events st.

End Trace.

(** ** More vocabulary *)

(** [x >= 0] *)
Definition nonnegative (x : number) : bool := SFleb zero x.

(** A number that is well formed, not [NaN] and not negative. *)
Definition sound_nonnegative (x : number) : Prop :=
  comparable x /\ valid x = true /\ nonnegative x = true.

(** The same number, bit for bit. *)
Definition number_eqb (x y : number) : bool :=
  match x, y with
  | S754_zero s, S754_zero t => Bool.eqb s t
  | S754_infinity s, S754_infinity t => Bool.eqb s t
  | S754_nan, S754_nan => true
  | S754_finite s m e, S754_finite t n f =>
      Bool.eqb s t && (m =? n)%positive && (e =? f)
  | _, _ => false
  end.

Definition total_is (t : number) (r : RegionStat.t) : bool :=
  number_eqb (RegionStat.total_mw r) t.

(** The keys of [l] in order of first appearance, those of [seen] left out. *)
Fixpoint first_occurrences (seen l : list jsstring) : list jsstring :=
  match l with
  | [] => []
  | k :: l' =>
      if existsb (fun k' => JsString.eqb k' k) seen
      then first_occurrences seen l'
      else k :: first_occurrences (seen ++ [k]) l'
  end.

Section MoreReading.

Context `{Builtins}.

(** What the aggregation reads of a customer. *)
Definition aggregated_fields (c : Customer) : jsstring * number * jsstring :=
  (city c, cap_of c, type_of c).

(** The region stats before they are sorted. *)
Definition unsorted_stats (l : list Customer) : list RegionStat.t :=
  map to_region_stat (CityMap.entries (group_by_city l)).

(** A capacity the data model allows: a finite number that is not negative. *)
Definition plausible_capacity (c : Customer) : Prop :=
  is_finite (cap_of c) = true /\ nonnegative (cap_of c) = true.

Definition chart_ge (a b : ChartDataPoint.t) : Prop :=
  ge (chart_sum a) (chart_sum b).

End MoreReading.

(** The classification as the specification words it: a customer counts as
    solar when its demand type contains the solar marker; as storage when it
    does not count as solar and contains the storage marker; as charging when
    it counts as neither and contains the charging marker; as other when it
    contains none of the three. *)
Definition has_marker (marker : jsstring) (c : Customer) : bool :=
  includes (type_of c) marker.

Definition counted_as_solar (c : Customer) : bool :=
  has_marker solar_marker c.

Definition counted_as_storage (c : Customer) : bool :=
  negb (has_marker solar_marker c) && has_marker storage_marker c.

Definition counted_as_charging (c : Customer) : bool :=
  negb (has_marker solar_marker c) && negb (has_marker storage_marker c)
  && has_marker charging_marker c.

Definition counted_as_other (c : Customer) : bool :=
  negb (has_marker solar_marker c) && negb (has_marker storage_marker c)
  && negb (has_marker charging_marker c).

(** The test of the type badge in the customer table, App.tsx lines 302-306:
    the badge has the solar colours when it holds. *)
Definition solar_badge (d : Customer) : bool :=
  includes (demand_type d) solar_marker.

(** ** More sample data *)

Definition sample_environment : Environment :=
  mkEnvironment
    (Some (fun k => if JsString.eqb k VITE_SUPABASE_URL then Some [] else None))
    (Some (fun k => if JsString.eqb k VITE_SUPABASE_URL
                    then Some (http ++ [58; 47; 47; 120]) else None)).

Definition sample_rows : list Row :=
  [mkRow [49] [65] [] hangzhou (JSnumber (decimal 25 1)) solar_marker
         None (Some [24352; 19977]) None;
   mkRow [50] [66] [] ningbo JSundefined storage_marker (Some []) None
         (Some phone_11)].

(** The region stat of the one site of the sample mock dataset. *)
Definition hangzhou_stat : RegionStat.t :=
  RegionStat.mk hangzhou 1 (decimal 25 1) zero zero zero (decimal 25 1).

(** The site of Ningbo of [one_site]. *)
Definition ningbo_customer : Customer :=
  mkCustomer [50] [] [] ningbo (JSnumber (decimal 50 0)) storage_marker [] [] [].

(** The one site of the sample mock dataset followed by the solar-storage
    pilot, both of Hangzhou, and the region stat of the two. *)
Definition pilot_sites : list Customer := sample_mock ++ [pilot_customer].

Definition pilot_stat : RegionStat.t :=
  let pv := add (add zero (decimal 25 1)) (decimal 15 1) in
  RegionStat.mk hangzhou 2 pv zero zero zero pv.

(** The site of Ningbo of [one_site] between two sites of Hangzhou, the
    second of which has no capacity. *)
Definition sites_with_gap : list Customer :=
  sample_mock ++ one_site ++ [no_capacity_customer].


(** A form of type "other" whose detail names storage. *)
Definition storage_detail_form : FormData :=
  mkFormData [] [] ningbo [] [49; 50] other_type storage_marker [] []
             phone_11 [].

(** Cities B and A with 10 MW each, then city C with 30 MW. *)
Definition tied_cities : list Customer :=
  [mkCustomer [49] [] [] [66] (JSnumber (decimal 10 0)) solar_marker [] [] [];
   mkCustomer [50] [] [] [65] (JSnumber (decimal 10 0)) solar_marker [] [] [];
   mkCustomer [51] [] [] [67] (JSnumber (decimal 30 0)) charging_marker [] [] []].

(** * Properties *)

(** ** Strings *)

Lemma jsstring_eqb_eq (a b : jsstring) : JsString.eqb a b = true <-> a = b.
Proof.
  revert b; induction a as [|u a IH]; intros [|v b]; simpl; split;
    try congruence; try reflexivity.
  - intros H. apply andb_true_iff in H as [Huv Hab].
    apply Z.eqb_eq in Huv. apply IH in Hab. congruence.
  - intros H. injection H as -> ->.
    apply andb_true_iff. split; [apply Z.eqb_refl | now apply IH].
Qed.

Lemma jsstring_eqb_refl (a : jsstring) : JsString.eqb a a = true.
Proof. now apply jsstring_eqb_eq. Qed.

Lemma jsstring_eqb_neq (a b : jsstring) : JsString.eqb a b = false <-> a <> b.
Proof.
  split.
  - intros H Heq. apply jsstring_eqb_eq in Heq. congruence.
  - intros H. destruct (JsString.eqb a b) eqn:E; [|reflexivity].
    apply jsstring_eqb_eq in E. contradiction.
Qed.

(** ** Display masks *)

(** C10: a non-empty name is masked to its first UTF-16 code unit followed by
    two asterisks, so two non-empty names with the same first unit have the
    same mask whatever their remainders and lengths (a one-unit name
    included); the empty name is masked to the empty string. *)
Theorem maskName_first_unit_only :
  maskName [] = [] /\
  (forall u rest, maskName (u :: rest) = [u; asterisk; asterisk]) /\
  (forall u rest1 rest2, maskName (u :: rest1) = maskName (u :: rest2)).
Proof.
  repeat split.
Qed.

Lemma match_phone_here_spec (s : jsstring) :
  match_phone_here s =
  if (11 <=? length s)%nat && forallb is_digit (firstn 11 s)
  then Some (firstn 3 s, firstn 4 (skipn 7 s), skipn 11 s) else None.
Proof. reflexivity. Qed.

Lemma match_phone_here_run (s : jsstring) g :
  match_phone_here s = Some g -> contains_digit_run s.
Proof.
  rewrite match_phone_here_spec.
  destruct (_ && _) eqn:E; [|discriminate]. intros _.
  apply andb_true_iff in E as [Hlen Hdig]. apply Nat.leb_le in Hlen.
  exists [], (firstn 11 s), (skipn 11 s).
  rewrite length_firstn. repeat split;
    [symmetry; apply (firstn_skipn 11 s) | lia | assumption].
Qed.

Lemma match_phone_here_digits (d post : jsstring) :
  length d = 11%nat -> forallb is_digit d = true ->
  match_phone_here (d ++ post) = Some (firstn 3 d, skipn 7 d, post).
Proof.
  intros Hlen Hdig. rewrite match_phone_here_spec.
  do 12 (destruct d as [|? d]; try discriminate). clear Hlen.
  simpl in Hdig. simpl. rewrite Hdig. reflexivity.
Qed.

Lemma contains_digit_run_tail (u : code_unit) (s : jsstring) :
  contains_digit_run s -> contains_digit_run (u :: s).
Proof.
  intros (pre & d & post & -> & Hlen & Hdig).
  now exists (u :: pre), d, post.
Qed.

Lemma contains_digit_run_cons (u : code_unit) (s : jsstring) :
  contains_digit_run (u :: s) ->
  match_phone_here (u :: s) <> None \/ contains_digit_run s.
Proof.
  intros ([|v pre] & d & post & Heq & Hlen & Hdig).
  - left. simpl in Heq. rewrite Heq, (match_phone_here_digits d post Hlen Hdig).
    discriminate.
  - right. injection Heq as _ ->. now exists pre, d, post.
Qed.

Lemma replace_phone_no_run (s : jsstring) :
  ~ contains_digit_run s -> replace_phone s = s.
Proof.
  induction s as [|u s IH]; intros Hno.
  - simpl. destruct (match_phone_here []) eqn:E; [|reflexivity].
    exfalso. eapply Hno, match_phone_here_run, E.
  - simpl. destruct (match_phone_here (u :: s)) as [g|] eqn:E.
    + exfalso. eapply Hno, match_phone_here_run, E.
    + f_equal. apply IH. intros Hrun. now apply Hno, contains_digit_run_tail.
Qed.

Lemma is_digit_not_asterisk (u : code_unit) : is_digit u = true -> u <> asterisk.
Proof.
  unfold is_digit, asterisk. intros Hd ->. discriminate.
Qed.

Lemma replace_phone_run (s : jsstring) :
  contains_digit_run s -> replace_phone s <> s.
Proof.
  induction s as [|u s IH]; intros Hrun.
  - destruct Hrun as (pre & d & post & Heq & Hlen & _).
    apply (f_equal (@length _)) in Heq. rewrite !length_app in Heq.
    simpl in Heq. lia.
  - simpl. destruct (match_phone_here (u :: s)) as [[[g1 g2] rest]|] eqn:E.
    + rewrite match_phone_here_spec in E.
      destruct (_ && _) eqn:E'; [|discriminate]. injection E as <- <- <-.
      apply andb_true_iff in E' as [Hlen Hdig].
      destruct s as [|s1 [|s2 [|s3 s]]]; try discriminate.
      simpl in Hdig. simpl. intros Heq.
      assert (Hast : s3 = asterisk) by congruence.
      apply andb_true_iff in Hdig as [_ Hdig].
      apply andb_true_iff in Hdig as [_ Hdig].
      apply andb_true_iff in Hdig as [_ Hdig].
      apply andb_true_iff in Hdig as [Hdig _].
      now apply (is_digit_not_asterisk s3).
    + intros Heq. injection Heq as Heq. revert Heq. apply IH.
      destruct (contains_digit_run_cons u s Hrun) as [Hm|Hs];
        [contradiction | assumption].
Qed.

Lemma replace_phone_eq (s : jsstring) :
  replace_phone s =
  match match_phone_here s with
  | Some (g1, g2, rest) => g1 ++ mask4 ++ g2 ++ rest
  | None => match s with [] => [] | u :: s' => u :: replace_phone s' end
  end.
Proof. destruct s; reflexivity. Qed.

Lemma replace_phone_leftmost (pre d post : jsstring) :
  length d = 11%nat -> forallb is_digit d = true ->
  ~ contains_digit_run (pre ++ firstn 10 d) ->
  replace_phone (pre ++ d ++ post) = pre ++ firstn 3 d ++ mask4 ++ skipn 7 d ++ post.
Proof.
  intros Hlen Hdig. induction pre as [|u pre IH]; intros Hleft.
  - change (replace_phone (d ++ post) =
            firstn 3 d ++ mask4 ++ skipn 7 d ++ post).
    now rewrite replace_phone_eq, (match_phone_here_digits d post Hlen Hdig).
  - change (replace_phone (u :: pre ++ d ++ post) =
            u :: pre ++ firstn 3 d ++ mask4 ++ skipn 7 d ++ post).
    rewrite replace_phone_eq.
    destruct (match_phone_here (u :: pre ++ d ++ post)) as [g|] eqn:E.
    + exfalso. apply Hleft.
      rewrite match_phone_here_spec in E.
      destruct (_ && _) eqn:E'; [|discriminate].
      apply andb_true_iff in E' as [_ Hrun].
      change (u :: pre ++ d ++ post) with ((u :: pre) ++ d ++ post) in Hrun.
      rewrite <- (firstn_skipn 10 d) in Hrun at 1.
      rewrite <- app_assoc, app_assoc in Hrun.
      assert (Hl : (11 <= length ((u :: pre) ++ firstn 10 d))%nat)
        by (rewrite length_app, length_firstn, Hlen; simpl; lia).
      rewrite firstn_app in Hrun.
      replace (11 - length ((u :: pre) ++ firstn 10 d))%nat with 0%nat in Hrun
        by lia.
      rewrite firstn_O, app_nil_r in Hrun.
      exists [], (firstn 11 ((u :: pre) ++ firstn 10 d)),
             (skipn 11 ((u :: pre) ++ firstn 10 d)).
      simpl app at 1. rewrite firstn_skipn, length_firstn.
      repeat split; [lia | assumption].
    + f_equal. apply IH. intros Hrun. apply Hleft.
      now apply (contains_digit_run_tail u).
Qed.

(** C3, as the code has it: an eleven-digit phone is masked to its first
    three digits, four asterisks and its last four digits; a string is
    returned unchanged exactly when it has no eleven consecutive digits; in
    every other string the leftmost eleven consecutive digits are masked in
    that way and the text around them is kept. *)
Theorem maskPhone_masks_leftmost_run (s : jsstring) :
  (length s = 11%nat -> forallb is_digit s = true ->
     maskPhone s = firstn 3 s ++ mask4 ++ skipn 7 s) /\
  (maskPhone s = s <-> ~ contains_digit_run s) /\
  (forall pre d post,
     s = pre ++ d ++ post -> length d = 11%nat -> forallb is_digit d = true ->
     ~ contains_digit_run (pre ++ firstn 10 d) ->
     maskPhone s = pre ++ firstn 3 d ++ mask4 ++ skipn 7 d ++ post).
Proof.
  assert (Hmask : s <> [] -> maskPhone s = replace_phone s)
    by (destruct s; [contradiction | reflexivity]).
  assert (Hthird : forall pre d post,
     s = pre ++ d ++ post -> length d = 11%nat -> forallb is_digit d = true ->
     ~ contains_digit_run (pre ++ firstn 10 d) ->
     maskPhone s = pre ++ firstn 3 d ++ mask4 ++ skipn 7 d ++ post).
  { intros pre d post Hs Hlen Hdig Hleft. rewrite Hmask.
    - subst s. now apply replace_phone_leftmost.
    - subst s. destruct pre; [destruct d|]; discriminate. }
  repeat split.
  - intros Hlen Hdig.
    rewrite (Hthird [] s [] (eq_sym (app_nil_r s)) Hlen Hdig).
    + now rewrite app_nil_r.
    + change ([] ++ firstn 10 s) with (firstn 10 s).
      intros (pre & d & post & Heq & Hd & _).
      apply (f_equal (@length _)) in Heq.
      rewrite !length_app, length_firstn in Heq. lia.
  - intros Heq Hrun. destruct s as [|u s].
    + destruct Hrun as (pre & d & post & Hs & Hlen & _).
      apply (f_equal (@length _)) in Hs. rewrite !length_app in Hs.
      simpl in Hs. lia.
    + rewrite Hmask in Heq by discriminate.
      now apply (replace_phone_run (u :: s)).
  - intros Hno. destruct s as [|u s]; [reflexivity|].
    rewrite Hmask by discriminate. now apply replace_phone_no_run.
  - exact Hthird.
Qed.

(** "13800138000" is masked to "138****8000". *)
Lemma maskPhone_masks_leftmost_run_witness :
  maskPhone phone_11 = [49; 51; 56; 42; 42; 42; 42; 56; 48; 48; 48].
Proof.
  exact (proj1 (maskPhone_masks_leftmost_run phone_11) eq_refl eq_refl).
Defined.

(** C3 as stated fails: "8613800138000" is not an eleven-digit phone, and it
    is not returned unchanged but as "861****138000". *)
Lemma maskPhone_changes_longer_number :
  ~ (forall s : jsstring,
       ~ (length s = 11%nat /\ forallb is_digit s = true) -> maskPhone s = s).
Proof.
  intros Hclaim.
  specialize (Hclaim phone_with_country_code).
  assert (Hout : maskPhone phone_with_country_code =
                 [56; 54; 49; 42; 42; 42; 42; 49; 51; 56; 48; 48; 48])
    by reflexivity.
  rewrite Hout in Hclaim.
  assert (Hne : ~ (length phone_with_country_code = 11%nat /\
                   forallb is_digit phone_with_country_code = true))
    by (intros [Hlen _]; discriminate).
  specialize (Hclaim Hne). discriminate.
Qed.

(** ** Numbers *)

(** *** Rounding in [SpecFloat] *)

Lemma digits2_pos_size (p : positive) : digits2_pos p = Pos.size p.
Proof. induction p; simpl; congruence. Qed.

Lemma size_bounds (p : positive) :
  2 ^ (Zpos (Pos.size p) - 1) <= Zpos p < 2 ^ Zpos (Pos.size p).
Proof.
  split.
  - pose proof (Pos.size_le p) as H.
    assert (H' : 2 ^ Zpos (Pos.size p) <= 2 * Zpos p).
    { change 2 with (Zpos 2) at 1. rewrite <- Pos2Z.inj_pow. 
      change (2 * Zpos p) with (Zpos p~0). now apply Pos2Z.pos_le_pos. }
    replace (Zpos (Pos.size p)) with (Z.succ (Zpos (Pos.size p) - 1)) in H' by lia.
    rewrite Z.pow_succ_r in H' by lia. lia.
  - pose proof (Pos.size_gt p) as H.
    change 2 with (Zpos 2). rewrite <- Pos2Z.inj_pow. now apply Pos2Z.pos_lt_pos.
Qed.

Lemma shr_1_m (mrs : shr_record) :
  0 <= shr_m mrs -> shr_m (shr_1 mrs) = Z.shiftr (shr_m mrs) 1.
Proof.
  destruct mrs as [m r s]. simpl. intros Hm.
  rewrite <- Z.div2_spec.
  destruct m as [|[p|p|]|p]; try reflexivity. lia.
Qed.

Lemma iter_shr_1_m (n : positive) (mrs : shr_record) :
  0 <= shr_m mrs ->
  shr_m (iter_pos shr_1 n mrs) = Z.shiftr (shr_m mrs) (Zpos n).
Proof.
  revert mrs. induction n as [n IH|n IH|]; intros mrs Hm; simpl iter_pos.
  - assert (H1 : 0 <= shr_m (shr_1 mrs))
      by (rewrite shr_1_m by assumption; now apply Z.shiftr_nonneg).
    assert (H2 : 0 <= shr_m (iter_pos shr_1 n (shr_1 mrs)))
      by (rewrite IH by assumption; now apply Z.shiftr_nonneg).
    rewrite IH, IH, shr_1_m by assumption.
    rewrite !Z.shiftr_shiftr by lia. f_equal. lia.
  - assert (H2 : 0 <= shr_m (iter_pos shr_1 n mrs))
      by (rewrite IH by assumption; now apply Z.shiftr_nonneg).
    rewrite IH, IH by assumption.
    rewrite !Z.shiftr_shiftr by lia. f_equal. lia.
  - now apply shr_1_m.
Qed.

Lemma shr_record_of_loc_m m l : shr_m (shr_record_of_loc m l) = m.
Proof. destruct l as [|[| |]]; reflexivity. Qed.

Lemma shiftr_pos_size (m n : positive) :
  Zpos n < Zpos (Pos.size m) -> 0 < Z.shiftr (Zpos m) (Zpos n).
Proof.
  intros Hn. rewrite Z.shiftr_div_pow2 by lia.
  apply Z.div_str_pos. split; [apply Z.pow_pos_nonneg; lia|].
  destruct (size_bounds m) as [Hlo _].
  eapply Z.le_trans; [|exact Hlo]. apply Z.pow_le_mono_r; lia.
Qed.

Lemma shr_fexp_pos (m : positive) (e : Z) (l : location) :
  emin <= e ->
  0 < shr_m (fst (shr_fexp prec emax (Zpos m) e l)) /\
  emin <= snd (shr_fexp prec emax (Zpos m) e l).
Proof.
  intros He. unfold shr_fexp, shr, fexp. fold emin.
  cbn [Zdigits2]. rewrite digits2_pos_size.
  destruct (Z.max (Zpos (Pos.size m) + e - prec) emin - e) as [|n|n] eqn:En;
    cbn [fst snd]; rewrite ?shr_record_of_loc_m; try (split; lia).
  rewrite iter_shr_1_m by (rewrite shr_record_of_loc_m; lia).
  rewrite shr_record_of_loc_m. split; [|lia].
  apply shiftr_pos_size. unfold prec in En. lia.
Qed.

Lemma round_nearest_even_pos (m : Z) (l : location) :
  0 < m -> 0 < round_nearest_even m l.
Proof.
  intros Hm. destruct l as [|[| |]]; simpl; try lia.
  destruct (Z.even m); lia.
Qed.

(** Rounding a positive mantissa whose exponent is at least [emin] gives a
    finite non-zero number or an infinity, of the given sign. *)
Lemma binary_round_aux_shape (s : bool) (m : positive) (e : Z) (l : location) :
  emin <= e ->
  binary_round_aux prec emax s (Zpos m) e l = S754_infinity s \/
  exists m' e', binary_round_aux prec emax s (Zpos m) e l = S754_finite s m' e'
                /\ emin <= e'.
Proof.
  intros He. unfold binary_round_aux.
  destruct (shr_fexp_pos m e l He) as [Hm1 He1].
  destruct (shr_fexp prec emax (Zpos m) e l) as [mrs1 e1]. cbn [fst snd] in *.
  pose proof (round_nearest_even_pos _ (loc_of_shr_record mrs1) Hm1) as Hr.
  destruct (round_nearest_even (shr_m mrs1) (loc_of_shr_record mrs1))
    as [|m2|m2]; try lia.
  destruct (shr_fexp_pos m2 e1 loc_Exact He1) as [Hm2 He2].
  destruct (shr_fexp prec emax (Zpos m2) e1 loc_Exact) as [mrs2 e2].
  cbn [fst snd] in *.
  destruct (shr_m mrs2) as [|m3|m3]; try lia.
  destruct (e2 <=? emax - prec); [right; eauto | left; reflexivity].
Qed.

Lemma shl_align_exponent (m : positive) (e e' : Z) :
  emin <= e -> emin <= e' -> emin <= snd (shl_align m e e').
Proof.
  intros He He'. unfold shl_align. destruct (e' - e); assumption.
Qed.

Lemma binary_round_shape (s : bool) (m : positive) (e : Z) :
  emin <= e ->
  binary_round prec emax s m e = S754_infinity s \/
  exists m' e', binary_round prec emax s m e = S754_finite s m' e'
                /\ emin <= e'.
Proof.
  intros He. unfold binary_round.
  pose proof (shl_align_exponent m e (fexp prec emax (Zpos (digits2_pos m) + e)) He) as Hz.
  destruct (shl_align m e (fexp prec emax (Zpos (digits2_pos m) + e))) as [mz ez].
  apply binary_round_aux_shape. apply Hz. unfold fexp. fold emin. lia.
Qed.

(** Whatever the mantissa and exponent, the result of rounding has the sign
    asked for, unless it is [NaN]. *)
Lemma binary_round_sign (s : bool) (m : positive) (e : Z) :
  match binary_round prec emax s m e with
  | S754_zero s' | S754_infinity s' | S754_finite s' _ _ => s' = s
  | S754_nan => True
  end.
Proof.
  unfold binary_round, binary_round_aux.
  destruct (shl_align _ _ _) as [mz ez].
  destruct (shr_fexp _ _ _ _ _) as [mrs1 e1].
  destruct (shr_fexp _ _ _ _ _) as [mrs2 e2].
  destruct (shr_m mrs2); try reflexivity.
  destruct (_ <=? _); reflexivity.
Qed.

Lemma iter_xO_value (m d : positive) :
  Zpos (Pos.iter xO m d) = Zpos m * 2 ^ Zpos d.
Proof.
  induction d as [|d IH] using Pos.peano_ind.
  - simpl. lia.
  - rewrite Pos.iter_succ, Pos2Z.inj_succ, Z.pow_succ_r by lia.
    rewrite Pos2Z.inj_xO, IH. lia.
Qed.

Lemma shl_align_value (m : positive) (e ez : Z) :
  ez <= e -> Zpos (fst (shl_align m e ez)) = Zpos m * 2 ^ (e - ez).
Proof.
  intros Hle. unfold shl_align.
  destruct (ez - e) as [|d|d] eqn:Ed; cbn [fst].
  - replace (e - ez) with 0 by lia. simpl. lia.
  - lia.
  - rewrite iter_xO_value. f_equal. f_equal. lia.
Qed.

Lemma aligned_scaled (s : bool) (m : positive) (e ez : Z) :
  ez <= e ->
  cond_Zopp s (Zpos (fst (shl_align m e ez))) = scaled (S754_finite s m e) ez.
Proof.
  intros Hle. rewrite (shl_align_value m e ez Hle). unfold scaled, cond_Zopp.
  destruct s; [now rewrite Z.mul_opp_l | reflexivity].
Qed.

Lemma sub_finite (sx sy : bool) (mx my : positive) (ex ey : Z) :
  let x := S754_finite sx mx ex in
  let y := S754_finite sy my ey in
  let ez := Z.min ex ey in
  sub x y = binary_normalize prec emax (scaled x ez - scaled y ez) ez false.
Proof.
  intros x y ez. subst x y ez. unfold sub, SFsub. cbv zeta.
  now rewrite !aligned_scaled by lia.
Qed.

Lemma add_finite (sx sy : bool) (mx my : positive) (ex ey : Z) :
  let x := S754_finite sx mx ex in
  let y := S754_finite sy my ey in
  let ez := Z.min ex ey in
  add x y = binary_normalize prec emax (scaled x ez + scaled y ez) ez false.
Proof.
  intros x y ez. subst x y ez. unfold add, SFadd. cbv zeta.
  now rewrite !aligned_scaled by lia.
Qed.

Lemma is_positive_iff (x : number) :
  is_positive x = true <->
  x = S754_infinity false \/ exists m e, x = S754_finite false m e.
Proof.
  destruct x as [s|[|]| |[|] m e]; simpl; split; intros Hx;
    try discriminate; try (left; reflexivity); try (right; eauto; fail);
    try reflexivity;
    destruct Hx as [Hx|(m' & e' & Hx)]; discriminate.
Qed.

Lemma binary_normalize_positive (z ez : Z) :
  is_positive (binary_normalize prec emax z ez false) = true -> 0 < z.
Proof.
  destruct z as [|p|p]; simpl; intros Hp; try discriminate; try lia.
  pose proof (binary_round_sign true p ez) as Hs.
  apply is_positive_iff in Hp as [Hp|(m & e & Hp)]; rewrite Hp in Hs;
    discriminate.
Qed.

Lemma binary_normalize_not_positive (z ez : Z) :
  emin <= ez ->
  is_positive (binary_normalize prec emax z ez false) = false -> z <= 0.
Proof.
  intros He. destruct z as [|p|p]; simpl; intros Hp; try lia.
  destruct (binary_round_shape false p ez He) as [Hr|(m & e & Hr & _)];
    rewrite Hr in Hp; discriminate.
Qed.

Lemma scaled_positive (m : positive) (e ez : Z) :
  ez <= e -> 0 < scaled (S754_finite false m e) ez.
Proof.
  intros Hle. unfold scaled, cond_Zopp.
  apply Z.mul_pos_pos; [lia | apply Z.pow_pos_nonneg; lia].
Qed.

Lemma scaled_negative (m : positive) (e ez : Z) :
  ez <= e -> scaled (S754_finite true m e) ez < 0.
Proof.
  intros Hle. unfold scaled, cond_Zopp. rewrite Z.mul_opp_l.
  apply Z.opp_neg_pos, Z.mul_pos_pos; [lia | apply Z.pow_pos_nonneg; lia].
Qed.

Ltac order_cases Hp :=
  match goal with
  | |- leb (S754_zero _) (S754_finite false ?m ?e) = true =>
      pose proof (scaled_positive m e (Z.min 0 e) (Z.le_min_r 0 e));
      unfold leb, exponent; apply Z.leb_le;
      change (scaled (S754_zero _) (Z.min 0 e)) with 0; lia
  | |- leb (S754_finite false ?m ?e) (S754_zero _) = true =>
      pose proof (scaled_positive m e (Z.min e 0) (Z.le_min_l e 0));
      unfold leb, exponent; apply Z.leb_le;
      change (scaled (S754_zero _) (Z.min e 0)) with 0; lia
  | |- leb (S754_zero _) (S754_finite true ?m ?e) = true =>
      pose proof (scaled_negative m e (Z.min 0 e) (Z.le_min_r 0 e));
      unfold leb, exponent; apply Z.leb_le;
      change (scaled (S754_zero _) (Z.min 0 e)) with 0; lia
  | |- leb (S754_finite true ?m ?e) (S754_zero _) = true =>
      pose proof (scaled_negative m e (Z.min e 0) (Z.le_min_l e 0));
      unfold leb, exponent; apply Z.leb_le;
      change (scaled (S754_zero _) (Z.min e 0)) with 0; lia
  | |- leb (S754_finite _ _ _) (S754_finite _ _ _) = true =>
      rewrite sub_finite in Hp; unfold leb, exponent; apply Z.leb_le;
      first [ apply binary_normalize_positive in Hp
            | apply binary_normalize_not_positive in Hp;
              [|apply Z.min_glb; assumption] ];
      first [lia | rewrite Z.min_comm; lia]
  end.

(** The comparator's verdict agrees with the order of the exact values. *)
Lemma sub_positive_leb (x y : number) :
  is_positive (sub y x) = true -> leb x y = true.
Proof.
  destruct x as [sx|sx| |sx mx ex], y as [sy|sy| |sy my ey];
    try (destruct sx); try (destruct sy); try discriminate;
    try reflexivity; intros Hp; order_cases Hp.
Qed.

Lemma sub_not_positive_leb (x y : number) :
  comparable x -> comparable y ->
  is_positive (sub y x) = false -> leb y x = true.
Proof.
  destruct x as [sx|sx| |sx mx ex], y as [sy|sy| |sy my ey];
    try (destruct sx); try (destruct sy); simpl comparable;
    intros Hx Hy; try contradiction; try discriminate;
    try reflexivity; intros Hp; order_cases Hp.
Qed.

(** *** Whole numbers are added exactly *)

Lemma size_unique (q : positive) (t : Z) :
  2 ^ (t - 1) <= Zpos q < 2 ^ t -> Zpos (Pos.size q) = t.
Proof.
  intros [Hlo Hhi]. destruct (size_bounds q) as [Slo Shi].
  assert (Ht : 0 < t).
  { destruct (Z.lt_trichotomy t 0) as [Hn|[Hz|Hp]]; [|subst t; simpl in Hhi; lia|assumption].
    rewrite Z.pow_neg_r in Hhi by assumption. lia. }
  destruct (Z.lt_trichotomy (Zpos (Pos.size q)) t) as [Hlt|[Heq|Hgt]];
    [|assumption|].
  - assert (2 ^ Zpos (Pos.size q) <= 2 ^ (t - 1)) by (apply Z.pow_le_mono_r; lia).
    lia.
  - assert (2 ^ t <= 2 ^ (Zpos (Pos.size q) - 1)) by (apply Z.pow_le_mono_r; lia).
    lia.
Qed.

Lemma size_shift (q m : positive) (n : Z) :
  0 <= n -> Zpos q = Zpos m * 2 ^ n ->
  Zpos (Pos.size q) = Zpos (Pos.size m) + n.
Proof.
  intros Hn Hq. apply size_unique. destruct (size_bounds m) as [Hlo Hhi].
  rewrite Hq.
  replace (Zpos (Pos.size m) + n - 1) with (Zpos (Pos.size m) - 1 + n) by lia.
  rewrite !Z.pow_add_r by lia.
  assert (0 < 2 ^ n) by (apply Z.pow_pos_nonneg; lia).
  split; [apply Z.mul_le_mono_nonneg_r | apply Z.mul_lt_mono_pos_r]; lia.
Qed.

Lemma shr_1_even (m : positive) :
  shr_1 (Build_shr_record (Zpos m * 2) false false)
  = Build_shr_record (Zpos m) false false.
Proof. rewrite Z.mul_comm. reflexivity. Qed.

Lemma iter_shr_1_exact (n m : positive) :
  iter_pos shr_1 n (Build_shr_record (Zpos m * 2 ^ Zpos n) false false)
  = Build_shr_record (Zpos m) false false.
Proof.
  revert m. induction n as [n IH|n IH|]; intros m; cbn [iter_pos].
  - rewrite (Pos2Z.inj_xI n).
    replace (Zpos m * 2 ^ (2 * Zpos n + 1))
      with (Zpos (m * 2 ^ n * 2 ^ n) * 2).
    + rewrite shr_1_even.
      rewrite Pos2Z.inj_mul, Pos2Z.inj_pow, IH.
      now rewrite Pos2Z.inj_mul, Pos2Z.inj_pow, IH.
    + rewrite !Pos2Z.inj_mul, !Pos2Z.inj_pow.
      rewrite Z.pow_add_r, Z.pow_mul_r by lia.
      change (2 ^ 2) with 4. rewrite Z.pow_1_r.
      replace 4 with (2 * 2) by reflexivity. rewrite Z.pow_mul_l. lia.
  - rewrite (Pos2Z.inj_xO n).
    replace (Zpos m * 2 ^ (2 * Zpos n))
      with (Zpos (m * 2 ^ n) * 2 ^ Zpos n).
    + rewrite IH. now rewrite Pos2Z.inj_mul, Pos2Z.inj_pow, IH.
    + rewrite !Pos2Z.inj_mul, !Pos2Z.inj_pow.
      rewrite Z.pow_mul_r by lia.
      change (2 ^ 2) with 4.
      replace 4 with (2 * 2) by reflexivity. rewrite Z.pow_mul_l. lia.
  - rewrite Z.pow_1_r. apply shr_1_even.
Qed.

Lemma shr_fexp_exact (q m : positive) (e n : Z) :
  0 <= n -> Zpos q = Zpos m * 2 ^ n ->
  canonical_mantissa prec emax m e = true ->
  shr_fexp prec emax (Zpos q) (e - n) loc_Exact
  = (Build_shr_record (Zpos m) false false, e).
Proof.
  intros Hn Hq Hc. unfold canonical_mantissa in Hc. apply Z.eqb_eq in Hc.
  rewrite digits2_pos_size in Hc.
  unfold shr_fexp. cbn [Zdigits2 shr_record_of_loc].
  rewrite digits2_pos_size, (size_shift q m n Hn Hq).
  replace (Zpos (Pos.size m) + n + (e - n)) with (Zpos (Pos.size m) + e) by lia.
  rewrite Hc. replace (e - (e - n)) with n by lia.
  unfold shr. destruct n as [|p|p]; [| |lia].
  - rewrite Z.pow_0_r, Z.mul_1_r in Hq. injection Hq as ->.
    now rewrite Z.sub_0_r.
  - rewrite Hq, iter_shr_1_exact. f_equal. lia.
Qed.

Lemma binary_round_aux_exact (s : bool) (q m : positive) (e n : Z) :
  0 <= n -> Zpos q = Zpos m * 2 ^ n ->
  canonical_mantissa prec emax m e = true -> e <= emax - prec ->
  binary_round_aux prec emax s (Zpos q) (e - n) loc_Exact = S754_finite s m e.
Proof.
  intros Hn Hq Hc He. unfold binary_round_aux.
  rewrite (shr_fexp_exact q m e n Hn Hq Hc). cbn [shr_m loc_of_shr_record round_nearest_even].
  pose proof (shr_fexp_exact m m e 0 (Z.le_refl 0)) as H0.
  rewrite Z.sub_0_r in H0. rewrite H0; [|rewrite Z.pow_0_r; lia | assumption].
  cbn [shr_m]. apply Z.leb_le in He. now rewrite He.
Qed.

(** The canonical form of a positive integer below 2^53: [d] binary digits
    are appended to fill the 53 of the mantissa. *)
Lemma canonical_integer (p m : positive) (d : Z) :
  d = prec - Zpos (Pos.size p) -> 0 <= d -> Zpos m = Zpos p * 2 ^ d ->
  canonical_mantissa prec emax m (- d) = true.
Proof.
  intros Hd Hd0 Hm. unfold canonical_mantissa. apply Z.eqb_eq.
  rewrite digits2_pos_size, (size_shift m p d Hd0 Hm).
  unfold fexp, SpecFloat.emin, prec, emax in *. lia.
Qed.

Lemma binary_round_integer (p q m : positive) (d k : Z) :
  d = prec - Zpos (Pos.size p) -> 0 <= d -> 0 <= k ->
  Zpos m = Zpos p * 2 ^ d -> Zpos q = Zpos p * 2 ^ k ->
  binary_round prec emax false q (- k) = S754_finite false m (- d).
Proof.
  intros Hd Hd0 Hk Hm Hq. unfold binary_round.
  rewrite digits2_pos_size, (size_shift q p k Hk Hq).
  replace (fexp prec emax (Zpos (Pos.size p) + k + - k)) with (- d)
    by (unfold fexp, SpecFloat.emin, prec, emax in *; lia).
  assert (Hcan : canonical_mantissa prec emax m (- d) = true)
    by now apply (canonical_integer p).
  assert (Hmax : - d <= emax - prec) by (unfold prec, emax; lia).
  assert (Hge : d <= k ->
                binary_round_aux prec emax false (Zpos q) (- k) loc_Exact
                = S754_finite false m (- d)).
  { intros Hdk. replace (- k) with (- d - (k - d)) by lia.
    apply binary_round_aux_exact; try assumption; try lia.
    rewrite Hq, Hm. replace k with (d + (k - d)) at 1 by lia.
    rewrite Z.pow_add_r by lia. lia. }
  unfold shl_align.
  destruct (- d - - k) as [|x|x] eqn:Ex; try (apply Hge; lia).
  assert (Hx : Zpos (Pos.iter xO q x) = Zpos m).
  { rewrite iter_xO_value, Hq, Hm. replace d with (k + Zpos x) by lia.
    rewrite Z.pow_add_r by lia. lia. }
  injection Hx as ->.
  replace (- d) with (- d - 0) at 1 by lia.
  apply binary_round_aux_exact; try assumption; try lia.
Qed.

Lemma integer_mantissa_value (p : positive) :
  Zpos p < 2 ^ prec ->
  0 <= prec - Zpos (Pos.size p) /\
  Zpos (integer_mantissa p) = Zpos p * 2 ^ (prec - Zpos (Pos.size p)).
Proof.
  intros Hp. destruct (size_bounds p) as [Hlo _].
  assert (Hs : Zpos (Pos.size p) - 1 < prec).
  { apply (Z.pow_lt_mono_r_iff 2); unfold prec in *; lia. }
  split; [lia|]. unfold integer_mantissa. rewrite Z2Pos.id; [reflexivity|].
  apply Z.mul_pos_pos; [lia | apply Z.pow_pos_nonneg; lia].
Qed.

Lemma whole_positive (p : positive) :
  Zpos p < 2 ^ prec ->
  whole (Zpos p)
  = S754_finite false (integer_mantissa p) (Zpos (Pos.size p) - prec).
Proof.
  intros Hp. destruct (integer_mantissa_value p Hp) as [Hd Hm].
  unfold whole. cbn [binary_normalize].
  replace (Zpos (Pos.size p) - prec) with (- (prec - Zpos (Pos.size p))) by lia.
  change 0 with (- 0) at 1.
  apply (binary_round_integer p); try assumption; try lia.
Qed.

(** Adding two non-negative integers whose sum is below 2^53 is exact. *)
Lemma add_whole (a b : Z) :
  0 <= a -> 0 <= b -> a + b < 2 ^ prec ->
  add (whole a) (whole b) = whole (a + b).
Proof.
  intros Ha Hb Hab.
  destruct a as [|a|a]; [| |lia]; destruct b as [|b|b]; try lia;
    try reflexivity.
  - rewrite Z.add_0_l. rewrite whole_positive by lia. reflexivity.
  - rewrite Z.add_0_r. rewrite whole_positive by lia. reflexivity.
  - destruct (integer_mantissa_value a) as [Hda Hma]; [lia|].
    destruct (integer_mantissa_value b) as [Hdb Hmb]; [lia|].
    destruct (integer_mantissa_value (a + b)) as [Hd Hm]; [lia|].
    rewrite (whole_positive a), (whole_positive b) by lia.
    rewrite add_finite. unfold scaled, cond_Zopp.
    set (ea := Zpos (Pos.size a) - prec) in *.
    set (eb := Zpos (Pos.size b) - prec) in *.
    set (ez := Z.min ea eb).
    assert (Hsum : Zpos (integer_mantissa a) * 2 ^ (ea - ez)
                   + Zpos (integer_mantissa b) * 2 ^ (eb - ez)
                   = Zpos (a + b) * 2 ^ (- ez)).
    { rewrite Hma, Hmb, <- !Z.mul_assoc, <- !Z.pow_add_r by lia.
      replace (prec - Zpos (Pos.size a) + (ea - ez)) with (- ez) by lia.
      replace (prec - Zpos (Pos.size b) + (eb - ez)) with (- ez) by lia.
      lia. }
    rewrite Hsum.
    assert (Hpos : 0 < Zpos (a + b) * 2 ^ (- ez))
      by (apply Z.mul_pos_pos; [lia | apply Z.pow_pos_nonneg; lia]).
    destruct (Zpos (a + b) * 2 ^ (- ez)) as [|q|q] eqn:Eq; try lia.
    cbn [binary_normalize].
    change (Zpos a + Zpos b) with (Zpos (a + b)).
    rewrite (whole_positive (a + b)) by lia.
    replace ez with (- (- ez)) at 1 by lia.
    replace (Zpos (Pos.size (a + b)) - prec)
      with (- (prec - Zpos (Pos.size (a + b)))) by lia.
    apply (binary_round_integer (a + b)); try assumption; try lia.
Qed.

(** *** The order of exact values is the library's comparison *)

Lemma canonical_size (m : positive) (e : Z) :
  canonical_mantissa prec emax m e = true ->
  Zpos (Pos.size m) <= prec /\ (emin < e -> Zpos (Pos.size m) = prec).
Proof.
  unfold canonical_mantissa, fexp. fold emin. rewrite digits2_pos_size.
  intros Hc. apply Z.eqb_eq in Hc. unfold emin, SpecFloat.emin, prec, emax in *. lia.
Qed.

Lemma canonical_exponent_lt (m1 m2 : positive) (e1 e2 : Z) :
  canonical_mantissa prec emax m1 e1 = true ->
  canonical_mantissa prec emax m2 e2 = true ->
  e1 < e2 -> Zpos m1 < Zpos m2 * 2 ^ (e2 - e1).
Proof.
  intros H1 H2 Hlt.
  assert (He1 : emin <= e1).
  { unfold canonical_mantissa, fexp in H1. fold emin in H1.
    apply Z.eqb_eq in H1. lia. }
  destruct (canonical_size m1 e1 H1) as [Hs1 _].
  destruct (canonical_size m2 e2 H2) as [_ Hs2].
  specialize (Hs2 ltac:(lia)).
  destruct (size_bounds m1) as [_ Hhi1]. destruct (size_bounds m2) as [Hlo2 _].
  rewrite Hs2 in Hlo2.
  assert (Hm1 : Zpos m1 < 2 ^ prec).
  { eapply Z.lt_le_trans; [exact Hhi1|]. apply Z.pow_le_mono_r; lia. }
  assert (Hp : 2 ^ 1 <= 2 ^ (e2 - e1)) by (apply Z.pow_le_mono_r; lia).
  assert (Hprec : 2 ^ prec = 2 ^ (prec - 1) * 2 ^ 1)
    by (rewrite <- Z.pow_add_r by (unfold prec; lia); f_equal; lia).
  assert (0 < 2 ^ (prec - 1)) by (apply Z.pow_pos_nonneg; unfold prec; lia).
  nia.
Qed.

Lemma compare_scaled (m1 m2 : positive) (e1 e2 : Z) :
  canonical_mantissa prec emax m1 e1 = true ->
  canonical_mantissa prec emax m2 e2 = true ->
  Z.compare (Zpos m1 * 2 ^ (e1 - Z.min e1 e2)) (Zpos m2 * 2 ^ (e2 - Z.min e1 e2))
  = match Z.compare e1 e2 with
    | Lt => Lt
    | Gt => Gt
    | Eq => Pos.compare_cont Eq m1 m2
    end.
Proof.
  intros H1 H2. destruct (Z.compare_spec e1 e2) as [Heq|Hlt|Hgt].
  - subst e2. rewrite Z.min_id, Z.sub_diag, Z.pow_0_r, !Z.mul_1_r.
    reflexivity.
  - rewrite Z.min_l, Z.sub_diag, Z.pow_0_r, Z.mul_1_r by lia.
    apply Z.compare_lt_iff. now apply canonical_exponent_lt.
  - rewrite Z.min_r, Z.sub_diag, Z.pow_0_r, Z.mul_1_r by lia.
    apply Z.compare_gt_iff. now apply canonical_exponent_lt.
Qed.

Lemma leb_SFleb (x y : number) :
  valid x = true -> valid y = true -> leb x y = SFleb x y.
Proof.
  destruct x as [sx|sx| |sx mx ex], y as [sy|sy| |sy my ey];
    try (destruct sx); try (destruct sy); try reflexivity;
    unfold valid; cbn [valid_binary]; unfold bounded; intros Hx Hy;
    try apply andb_true_iff in Hx as [Hx _];
    try apply andb_true_iff in Hy as [Hy _];
    unfold leb, SFleb, SFcompare, exponent, scaled, cond_Zopp;
    try (pose proof (compare_scaled mx my ex ey Hx Hy) as Hc;
         rewrite Z.leb_compare);
    try (assert (0 < 2 ^ (ex - Z.min ex 0))
           by (apply Z.pow_pos_nonneg; lia));
    try (assert (0 < 2 ^ (ey - Z.min 0 ey))
           by (apply Z.pow_pos_nonneg; lia));
    try (assert (0 < 2 ^ (ex - Z.min ex ey))
           by (apply Z.pow_pos_nonneg; lia);
         assert (0 < 2 ^ (ey - Z.min ex ey))
           by (apply Z.pow_pos_nonneg; lia));
    try (apply Z.leb_le; nia); try (apply Z.leb_gt; nia).
  - rewrite !Z.mul_opp_l, Z.compare_opp, Z.compare_antisym, Hc.
    now destruct (ex ?= ey).
  - rewrite Hc. reflexivity.
Qed.

(** *** Rounding gives well-formed numbers *)

Lemma size_mono (a b : positive) :
  Zpos a <= Zpos b -> Zpos (Pos.size a) <= Zpos (Pos.size b).
Proof.
  intros Hab. destruct (size_bounds a) as [Alo _], (size_bounds b) as [_ Bhi].
  destruct (Z_le_gt_dec (Zpos (Pos.size a)) (Zpos (Pos.size b))) as [|Hgt];
    [assumption|].
  assert (2 ^ Zpos (Pos.size b) <= 2 ^ (Zpos (Pos.size a) - 1))
    by (apply Z.pow_le_mono_r; lia).
  lia.
Qed.

Lemma size_succ (a b : positive) :
  Zpos b = Zpos a + 1 -> Zpos (Pos.size b) <= Zpos (Pos.size a) + 1.
Proof.
  intros Hb. destruct (size_bounds a) as [_ Ahi], (size_bounds b) as [Blo _].
  destruct (Z_le_gt_dec (Zpos (Pos.size b)) (Zpos (Pos.size a) + 1)) as [|Hgt];
    [assumption|].
  assert (2 ^ (Zpos (Pos.size a) + 1) <= 2 ^ (Zpos (Pos.size b) - 1))
    by (apply Z.pow_le_mono_r; lia).
  rewrite Z.pow_add_r in * by lia. lia.
Qed.

Lemma size_shiftr (m q n : positive) :
  Zpos n < Zpos (Pos.size m) -> Zpos q = Z.shiftr (Zpos m) (Zpos n) ->
  Zpos (Pos.size q) = Zpos (Pos.size m) - Zpos n.
Proof.
  intros Hn Hq. rewrite Z.shiftr_div_pow2 in Hq by lia.
  apply size_unique. rewrite Hq. destruct (size_bounds m) as [Hlo Hhi].
  assert (Hp : 0 < 2 ^ Zpos n) by (apply Z.pow_pos_nonneg; lia).
  split.
  - apply Z.div_le_lower_bound; [assumption|].
    rewrite <- Z.pow_add_r by lia.
    replace (Zpos n + (Zpos (Pos.size m) - Zpos n - 1))
      with (Zpos (Pos.size m) - 1) by lia.
    assumption.
  - apply Z.div_lt_upper_bound; [assumption|].
    rewrite <- Z.pow_add_r by lia.
    replace (Zpos n + (Zpos (Pos.size m) - Zpos n)) with (Zpos (Pos.size m)) by lia.
    assumption.
Qed.

Lemma canonical_iff (m : positive) (e : Z) :
  canonical_mantissa prec emax m e = true <-> canonical m e.
Proof.
  unfold canonical_mantissa, canonical. rewrite digits2_pos_size.
  apply Z.eqb_eq.
Qed.

(** A shift to the exponent [fexp] asks for leaves a canonical mantissa. *)
Lemma shr_fexp_canonical (m : positive) (e : Z) (l : location) :
  emin <= e -> e <= fexp prec emax (Zpos (Pos.size m) + e) ->
  exists m1, shr_m (fst (shr_fexp prec emax (Zpos m) e l)) = Zpos m1 /\
             canonical m1 (snd (shr_fexp prec emax (Zpos m) e l)) /\
             emin <= snd (shr_fexp prec emax (Zpos m) e l).
Proof.
  intros He Hf.
  destruct (shr_fexp_pos m e l He) as [Hpos He'].
  revert Hpos He'. unfold shr_fexp, shr. cbn [Zdigits2].
  rewrite digits2_pos_size.
  destruct (fexp prec emax (Zpos (Pos.size m) + e) - e) as [|n|n] eqn:En;
    cbn [fst snd]; rewrite ?shr_record_of_loc_m; intros Hpos He'; try lia.
  - exists m. repeat split; [|assumption]. unfold canonical. lia.
  - rewrite iter_shr_1_m in * by (rewrite shr_record_of_loc_m; lia).
    rewrite shr_record_of_loc_m in *.
    destruct (Z.shiftr (Zpos m) (Zpos n)) as [|m1|m1] eqn:Em; try lia.
    exists m1. repeat split; [|assumption].
    assert (Hn : Zpos n = Zpos (Pos.size m) - prec)
      by (unfold fexp in En; fold emin in En; lia).
    unfold canonical.
    rewrite (size_shiftr m m1 n) by (unfold prec in *; lia).
    unfold fexp in *. fold emin in *. lia.
Qed.

Lemma round_nearest_even_cases (m : Z) (l : location) :
  round_nearest_even m l = m \/ round_nearest_even m l = m + 1.
Proof.
  destruct l as [|[| |]]; simpl; auto. destruct (Z.even m); auto.
Qed.

Lemma binary_round_aux_valid (s : bool) (m : positive) (e : Z) (l : location) :
  emin <= e -> e <= fexp prec emax (Zpos (Pos.size m) + e) ->
  valid_binary prec emax (binary_round_aux prec emax s (Zpos m) e l) = true.
Proof.
  intros He Hf. unfold binary_round_aux.
  destruct (shr_fexp_canonical m e l He Hf) as (m1 & Hm1 & Hc1 & He1).
  destruct (shr_fexp prec emax (Zpos m) e l) as [mrs1 e1]. cbn [fst snd] in *.
  rewrite Hm1.
  assert (Hm2 : exists m2,
             round_nearest_even (Zpos m1) (loc_of_shr_record mrs1) = Zpos m2 /\
             e1 <= fexp prec emax (Zpos (Pos.size m2) + e1)).
  { unfold canonical in Hc1.
    destruct (round_nearest_even_cases (Zpos m1) (loc_of_shr_record mrs1))
      as [-> | ->].
    - exists m1. split; [reflexivity | lia].
    - exists (m1 + 1)%positive. split; [reflexivity|].
      assert (Zpos (Pos.size m1) <= Zpos (Pos.size (m1 + 1)))
        by (apply size_mono; lia).
      unfold fexp in *. lia. }
  destruct Hm2 as (m2 & -> & Hf2).
  destruct (shr_fexp_canonical m2 e1 loc_Exact He1 Hf2) as (m3 & Hm3 & Hc3 & He3).
  destruct (shr_fexp prec emax (Zpos m2) e1 loc_Exact) as [mrs2 e2].
  cbn [fst snd] in *. rewrite Hm3.
  destruct (e2 <=? emax - prec) eqn:Eb; [|reflexivity].
  cbn [valid_binary]. unfold bounded. rewrite Eb, andb_true_r.
  now apply canonical_iff.
Qed.

Lemma binary_round_valid (s : bool) (m : positive) (e : Z) :
  emin <= e -> valid_binary prec emax (binary_round prec emax s m e) = true.
Proof.
  intros He. unfold binary_round. rewrite digits2_pos_size. unfold shl_align.
  destruct (fexp prec emax (Zpos (Pos.size m) + e) - e) as [|d|d] eqn:Ed.
  - apply binary_round_aux_valid; [assumption | lia].
  - apply binary_round_aux_valid; [assumption | lia].
  - apply binary_round_aux_valid.
    + unfold fexp. fold emin. lia.
    + rewrite (size_shift (Pos.iter xO m d) m (Zpos d)) by
        (try lia; apply iter_xO_value).
      replace (Zpos (Pos.size m) + Zpos d
               + fexp prec emax (Zpos (Pos.size m) + e))
        with (Zpos (Pos.size m) + e) by lia.
      lia.
Qed.

(** *** Literals *)

(** 0.1 is 0x1.999999999999ap-4 and 0.7 is 0x1.6666666666666p-1. *)
Example decimal_tenth :
  decimal 1 1 = S754_finite false 7205759403792794 (-56)
  /\ decimal 7 1 = S754_finite false 6305039478318694 (-53).
Proof. split; reflexivity. Qed.

Example decimal_whole : decimal 50 0 = whole 50.
Proof. reflexivity. Qed.

(** 0.1 + 0.2 + 0.4 is 0.7000000000000001 and 0.1 + 0.4 + 0.2 is 0.7. *)
Example add_not_associative :
  add (add (decimal 1 1) (decimal 2 1)) (decimal 4 1)
    = S754_finite false 6305039478318695 (-53)
  /\ add (add (decimal 1 1) (decimal 4 1)) (decimal 2 1) = decimal 7 1.
Proof. split; reflexivity. Qed.

(** *** Coercion *)

Lemma add_zero_r (x : number) : same_value_zero (add x zero) x.
Proof.
  destruct x as [[|]| | |]; unfold same_value_zero, add, zero; simpl;
    try (left; reflexivity).
  right. now exists false, true.
Qed.

Lemma or_zero_not_nan (x : number) : is_nan (or_zero x) = false.
Proof. now destruct x. Qed.

Lemma or_zero_nan (x : number) : is_nan x = true -> or_zero x = zero.
Proof. now destruct x. Qed.

(** *** Sums stay comparable *)

Lemma is_finite_comparable (x : number) :
  is_finite x = true ->
  comparable x /\ x <> S754_infinity false /\ x <> S754_infinity true.
Proof.
  destruct x as [s|s| |s m e]; simpl; try discriminate;
    intros Hx; repeat split; try discriminate.
  unfold bounded, canonical_mantissa in Hx.
  apply andb_true_iff in Hx as [Hc _]. apply Z.eqb_eq in Hc.
  unfold fexp in Hc. fold emin in Hc. lia.
Qed.

Lemma binary_normalize_comparable (z ez : Z) :
  emin <= ez -> comparable (binary_normalize prec emax z ez false).
Proof.
  intros He. destruct z as [|p|p]; simpl; [exact I| |].
  - destruct (binary_round_shape false p ez He) as [Hr|(m & e & Hr & Hm)];
      rewrite Hr; simpl; auto.
  - destruct (binary_round_shape true p ez He) as [Hr|(m & e & Hr & Hm)];
      rewrite Hr; simpl; auto.
Qed.

Lemma add_comparable (x y : number) :
  comparable x -> is_finite y = true -> comparable (add x y).
Proof.
  intros Hx Hy. apply is_finite_comparable in Hy as (Hy & Hp & Hn).
  destruct x as [sx|sx| |sx mx ex], y as [sy|sy| |sy my ey];
    try contradiction; try congruence; try (destruct sy; congruence);
    try (destruct sx, sy; exact I); try exact Hx; try exact Hy.
  rewrite add_finite. apply binary_normalize_comparable.
  simpl in Hx, Hy. lia.
Qed.

Lemma valid_exponent (s : bool) (m : positive) (e : Z) :
  valid (S754_finite s m e) = true -> emin <= e.
Proof.
  intros Hv. apply (is_finite_comparable (S754_finite s m e)). exact Hv.
Qed.

Lemma add_valid (x y : number) :
  valid x = true -> valid y = true -> valid (add x y) = true.
Proof.
  destruct x as [sx|sx| |sx mx ex], y as [sy|sy| |sy my ey];
    try (destruct sx, sy; reflexivity); try (intros; assumption);
    try reflexivity.
  intros Hx Hy. apply valid_exponent in Hx, Hy.
  rewrite add_finite. unfold valid.
  destruct (_ + _) as [|p|p]; cbn [binary_normalize]; [reflexivity| |];
    apply binary_round_valid; lia.
Qed.

Lemma is_finite_valid (x : number) : is_finite x = true -> valid x = true.
Proof. now destruct x. Qed.

(** ** The shell *)

Section ShellFacts.

Context `{Builtins}.
Variable MOCK_CUSTOMERS : list Customer.

(** C4: when the remote [list()] fails, by an error result or by throwing,
    or returns no row, the customer set of the shell becomes the mock dataset
    itself. *)
Theorem fetch_falls_back_to_mock (res : Response (list Row)) (st : AppState) :
  failed res \/ empty_result res ->
  customers (fetchCustomers MOCK_CUSTOMERS res st) = MOCK_CUSTOMERS.
Proof.
  destruct res as [|[[|r rows]|] [err|]]; simpl; intros [[]|[]]; reflexivity.
Qed.

(** C5: when the remote [insert()] fails, by an error result or by throwing,
    one customer is put in front of the customer set; it carries the random
    identifier and the submitted company, province, city, capacity (parsed,
    zero by default), demand type, industry, contact name and phone, and the
    customers already present follow it unchanged and in their order. *)
Theorem failed_insert_prepends_local (inserted : Response unit)
    (refetched : Response (list Row)) (random_id : jsstring)
    (data : FormData) (st : AppState) :
  failed inserted ->
  exists c,
    customers (handleNewRegistration MOCK_CUSTOMERS inserted refetched
                                     random_id data st)
    = c :: customers st /\
    id c = random_id /\
    company_name c = companyName data /\
    province c = province_field data /\
    city c = city_field data /\
    capacity_mw c = JSnumber (or_zero (parseFloat (capacity data))) /\
    demand_type c = p_demand_type (dbPayload data) /\
    industry c = industryType data /\
    contact c = contactName data /\
    phone c = contactPhone data.
Proof.
  intros Hfail. eexists.
  destruct inserted as [|d [err|]]; simpl in *; try contradiction;
    repeat split.
Qed.

(** The registration path: a capacity that does not parse is replaced by 0,
    so that the capacity of a registered customer is never [NaN]. *)
Lemma registered_capacity_not_nan (data : FormData) :
  is_nan (p_capacity_mw (dbPayload data)) = false.
Proof. apply or_zero_not_nan. Qed.

End ShellFacts.

(** The remote read throws: the shell shows the mock dataset. *)
Lemma fetch_falls_back_to_mock_witness :
  customers (@fetchCustomers integer_builtins sample_mock Threw sample_state)
  = sample_mock.
Proof.
  exact (@fetch_falls_back_to_mock integer_builtins sample_mock Threw
           sample_state (or_introl I)).
Defined.

(** The remote write throws: the registered site of Ningbo heads the list. *)
Lemma failed_insert_prepends_local_witness :
  exists c,
    customers (@handleNewRegistration integer_builtins sample_mock Threw Threw
                 [48; 46; 53] sample_form (mkAppState sample_mock false 0))
    = c :: sample_mock /\ id c = [48; 46; 53].
Proof.
  destruct (@failed_insert_prepends_local integer_builtins sample_mock Threw
              Threw [48; 46; 53] sample_form (mkAppState sample_mock false 0) I)
    as (c & Hc & Hid & _).
  exists c. split; assumption.
Defined.

Section FetchedCapacity.

Context `{Builtins}.
Variable MOCK_CUSTOMERS : list Customer.

Lemma map_row_capacity (d : Row) :
  capacity_mw (map_row d) = JSnumber (Number (row_capacity_mw d)).
Proof. reflexivity. Qed.

(** C9 against the fetch path: a remote row without a capacity is mapped to
    a customer whose capacity is [NaN], not 0, and that customer is what the
    shell then holds. *)
Theorem fetched_capacity_keeps_nan (st : AppState) :
  exists c,
    customers (fetchCustomers MOCK_CUSTOMERS
                 (Resolved (Some [row_without_capacity]) None) st) = [c] /\
    capacity_mw c = JSnumber NaN.
Proof.
  exists (map_row row_without_capacity). split; reflexivity.
Qed.

End FetchedCapacity.

(** ** Sorting *)

Section SortFacts.

Context {A : Type}.
Variable comparefn : A -> A -> number.

Lemma sort_insert_perm (a : A) (l : list A) :
  Permutation (sort_insert comparefn a l) (a :: l).
Proof.
  induction l as [|b l IH]; simpl; [reflexivity|].
  destruct (is_positive (comparefn a b)); [|reflexivity].
  rewrite IH. apply perm_swap.
Qed.

Lemma sort_perm (l : list A) : Permutation (sort comparefn l) l.
Proof.
  induction l as [|a l IH]; simpl; [reflexivity|].
  rewrite sort_insert_perm. now constructor.
Qed.

(** [before a b]: [a] may stand immediately before [b]. When the comparator
    decides every pair of the list in accord with [before], the sorted list
    has every adjacent pair in that relation. *)
Variable before : A -> A -> Prop.
Variable ok : A -> Prop.
Hypothesis keep_order :
  forall a b, ok a -> ok b -> is_positive (comparefn a b) = false -> before a b.
Hypothesis swap_order :
  forall a b, ok a -> ok b -> is_positive (comparefn a b) = true -> before b a.

Lemma sort_insert_sorted (a : A) (l : list A) :
  ok a -> Forall ok l -> Sorted before l ->
  Sorted before (sort_insert comparefn a l).
Proof.
  intros Ha. induction l as [|b l IH]; intros Hok Hs; simpl.
  - repeat constructor.
  - inversion Hok as [|? ? Hb Hl]; subst.
    inversion Hs as [|? ? Hs' Hhd]; subst.
    destruct (is_positive (comparefn a b)) eqn:E.
    + constructor; [now apply IH|].
      destruct l as [|c l]; simpl.
      * constructor. now apply swap_order.
      * destruct (is_positive (comparefn a c)).
        -- constructor. now inversion Hhd.
        -- constructor. now apply swap_order.
    + constructor; [assumption|]. constructor. now apply keep_order.
Qed.

Lemma sort_sorted (l : list A) : Forall ok l -> Sorted before (sort comparefn l).
Proof.
  induction l as [|a l IH]; intros Hok; simpl; [constructor|].
  inversion Hok as [|? ? Ha Hl]; subst.
  apply sort_insert_sorted; [assumption| |now apply IH].
  eapply Permutation_Forall; [|exact Hl]. symmetry. apply sort_perm.
Qed.

End SortFacts.

(** ** The city map *)

Lemma get_set_same (m : CityMap.t) k v :
  CityMap.get (CityMap.set m k v) k = Some v.
Proof.
  induction m as [|[k' v'] m IH]; simpl.
  - now rewrite jsstring_eqb_refl.
  - destruct (JsString.eqb k' k) eqn:E; simpl; rewrite E; auto.
Qed.

Lemma get_set_other (m : CityMap.t) k k' v :
  k <> k' -> CityMap.get (CityMap.set m k v) k' = CityMap.get m k'.
Proof.
  intros Hne. induction m as [|[k0 v0] m IH]; simpl.
  - apply jsstring_eqb_neq in Hne. now rewrite Hne.
  - destruct (JsString.eqb k0 k) eqn:E; simpl.
    + apply jsstring_eqb_eq in E. subst k0.
      apply jsstring_eqb_neq in Hne. now rewrite Hne.
    + now rewrite IH.
Qed.

Section AggregationFacts.

Context `{Builtins}.

Lemma accumulate_set (m : CityMap.t) (c : Customer) :
  accumulate m c =
  CityMap.set (if negb (CityMap.has m (city c))
               then CityMap.set m (city c) new_entry else m)
              (city c)
              (bump (entry_before m (city c)) (type_of c) (cap_of c)).
Proof.
  unfold accumulate, entry_before, CityMap.has.
  destruct (CityMap.get m (city c)) as [e|] eqn:G; simpl.
  - now rewrite G.
  - now rewrite get_set_same.
Qed.

Lemma accumulate_same (m : CityMap.t) (c : Customer) :
  CityMap.get (accumulate m c) (city c) =
  Some (bump (entry_before m (city c)) (type_of c) (cap_of c)).
Proof. rewrite accumulate_set. apply get_set_same. Qed.

Lemma accumulate_other (m : CityMap.t) (c : Customer) k :
  city c <> k -> CityMap.get (accumulate m c) k = CityMap.get m k.
Proof.
  intros Hne. rewrite accumulate_set, get_set_other by assumption.
  destruct (negb _); [now apply get_set_other | reflexivity].
Qed.

End AggregationFacts.

(** ** Grouping by city *)

Lemma has_In (m : CityMap.t) k : CityMap.has m k = true <-> In k (map fst m).
Proof.
  unfold CityMap.has. induction m as [|[k' v] m IH]; simpl.
  - split; [discriminate | contradiction].
  - destruct (JsString.eqb k' k) eqn:E.
    + apply jsstring_eqb_eq in E. intuition.
    + apply jsstring_eqb_neq in E. rewrite IH. intuition.
Qed.

Lemma In_get (m : CityMap.t) k e :
  NoDup (map fst m) -> In (k, e) m -> CityMap.get m k = Some e.
Proof.
  induction m as [|[k' v] m IH]; simpl; intros Hnd Hin; [contradiction|].
  inversion Hnd as [|? ? Hk' Hnd']; subst.
  destruct Hin as [Heq|Hin].
  - injection Heq as -> ->. now rewrite jsstring_eqb_refl.
  - destruct (JsString.eqb k' k) eqn:E.
    + apply jsstring_eqb_eq in E. subst k'. exfalso. apply Hk'.
      now apply (in_map fst) in Hin.
    + now apply IH.
Qed.

Lemma set_keys (m : CityMap.t) k v :
  map fst (CityMap.set m k v) =
  if CityMap.has m k then map fst m else map fst m ++ [k].
Proof.
  unfold CityMap.has. induction m as [|[k' v'] m IH]; simpl; [reflexivity|].
  destruct (JsString.eqb k' k); simpl; [reflexivity|].
  rewrite IH. now destruct (CityMap.get m k).
Qed.

Lemma has_set_same (m : CityMap.t) k v : CityMap.has (CityMap.set m k v) k = true.
Proof. unfold CityMap.has. now rewrite get_set_same. Qed.

Lemma sites_set_present (m : CityMap.t) k v e :
  CityMap.get m k = Some e ->
  (sites (CityMap.set m k v) + site_count e = sites m + site_count v)%nat.
Proof.
  unfold sites. induction m as [|[k' v'] m IH]; simpl; [discriminate|].
  destruct (JsString.eqb k' k); simpl.
  - intros [= ->]. lia.
  - intros Hg. specialize (IH Hg). lia.
Qed.

Lemma sites_set_absent (m : CityMap.t) k v :
  CityMap.get m k = None ->
  sites (CityMap.set m k v) = (sites m + site_count v)%nat.
Proof.
  unfold sites. induction m as [|[k' v'] m IH]; simpl; [lia|].
  destruct (JsString.eqb k' k); simpl; [discriminate|].
  intros Hg. rewrite (IH Hg). lia.
Qed.

Section GroupFacts.

Context `{Builtins}.

Lemma bump_site_count e t cap : site_count (bump e t cap) = S (site_count e).
Proof. unfold bump. now repeat destruct (includes _ _). Qed.

Lemma bump_total e t cap : total_mw (bump e t cap) = add (total_mw e) cap.
Proof. unfold bump. now repeat destruct (includes _ _). Qed.

Lemma bump_category cat e t cap :
  category_mw cat (bump e t cap) =
  if category_eqb (category_of t) cat then add (category_mw cat e) cap
  else category_mw cat e.
Proof.
  unfold bump, category_of.
  destruct cat; repeat destruct (includes _ _); reflexivity.
Qed.

Lemma bump_all_site_count cs e :
  site_count (bump_all cs e) = (length cs + site_count e)%nat.
Proof.
  revert e. induction cs as [|c cs IH]; intros e; simpl; [reflexivity|].
  fold (bump_all cs (bump e (type_of c) (cap_of c))).
  rewrite IH, bump_site_count. lia.
Qed.

Lemma bump_all_total cs e :
  total_mw (bump_all cs e) = fold_left add (map cap_of cs) (total_mw e).
Proof.
  revert e. induction cs as [|c cs IH]; intros e; simpl; [reflexivity|].
  fold (bump_all cs (bump e (type_of c) (cap_of c))).
  now rewrite IH, bump_total.
Qed.

Lemma bump_all_category cat cs e :
  category_mw cat (bump_all cs e) =
  fold_left add (map cap_of (filter (in_category cat) cs)) (category_mw cat e).
Proof.
  revert e. induction cs as [|c cs IH]; intros e; simpl; [reflexivity|].
  fold (bump_all cs (bump e (type_of c) (cap_of c))).
  rewrite IH, bump_category. unfold in_category at 2.
  now destruct (category_eqb _ _).
Qed.

Lemma accumulate_keys (m : CityMap.t) (c : Customer) :
  map fst (accumulate m c) =
  if CityMap.has m (city c) then map fst m else map fst m ++ [city c].
Proof.
  rewrite accumulate_set, set_keys.
  destruct (CityMap.has m (city c)) eqn:E; simpl.
  - now rewrite E.
  - now rewrite has_set_same, set_keys, E.
Qed.

Lemma accumulate_sites (m : CityMap.t) (c : Customer) :
  sites (accumulate m c) = S (sites m).
Proof.
  rewrite accumulate_set. unfold entry_before, CityMap.has.
  destruct (CityMap.get m (city c)) as [e|] eqn:G; simpl.
  - pose proof (sites_set_present m (city c)
                  (bump e (type_of c) (cap_of c)) e G) as Hs.
    rewrite bump_site_count in Hs. lia.
  - pose proof (sites_set_present (CityMap.set m (city c) new_entry) (city c)
                  (bump new_entry (type_of c) (cap_of c)) new_entry
                  (get_set_same _ _ _)) as Hs.
    rewrite bump_site_count, (sites_set_absent _ _ _ G) in Hs. simpl in Hs. lia.
Qed.

Lemma fold_accumulate_sites (l : list Customer) (m : CityMap.t) :
  sites (fold_left accumulate l m) = (sites m + length l)%nat.
Proof.
  revert m. induction l as [|c l IH]; intros m; simpl; [lia|].
  rewrite IH, accumulate_sites. lia.
Qed.

Lemma fold_accumulate_NoDup (l : list Customer) (m : CityMap.t) :
  NoDup (map fst m) -> NoDup (map fst (fold_left accumulate l m)).
Proof.
  revert m. induction l as [|c l IH]; intros m Hnd; simpl; [assumption|].
  apply IH. rewrite accumulate_keys.
  destruct (CityMap.has m (city c)) eqn:E; [assumption|].
  apply NoDup_app; [assumption | repeat constructor; intros [] |].
  intros k Hk [<-|[]].
  apply has_In in Hk. congruence.
Qed.

Lemma fold_accumulate_In (l : list Customer) (m : CityMap.t) k :
  In k (map fst (fold_left accumulate l m)) <->
  In k (map fst m) \/ In k (map city l).
Proof.
  revert m. induction l as [|c l IH]; intros m; simpl; [intuition|].
  rewrite IH, accumulate_keys.
  destruct (CityMap.has m (city c)) eqn:E.
  - apply has_In in E. intuition (subst; auto).
  - rewrite in_app_iff. simpl. intuition.
Qed.

Lemma get_fold_accumulate (l : list Customer) (m : CityMap.t) k :
  CityMap.get (fold_left accumulate l m) k =
  match customers_of k l with
  | [] => CityMap.get m k
  | cs => Some (bump_all cs (entry_before m k))
  end.
Proof.
  revert m. induction l as [|c l IH]; intros m; simpl; [reflexivity|].
  rewrite IH. destruct (JsString.eqb (city c) k) eqn:E.
  - apply jsstring_eqb_eq in E. subst k.
    unfold entry_before at 1. rewrite accumulate_same.
    now destruct (customers_of (city c) l).
  - apply jsstring_eqb_neq in E.
    unfold entry_before. rewrite (accumulate_other m c k E).
    reflexivity.
Qed.

End GroupFacts.

(** ** The region stats *)

(** A total the comparator can place: well-formed and not [NaN]. *)
Lemma fold_add_comparable (caps : list number) (x : number) :
  comparable x -> valid x = true ->
  Forall (fun y => is_finite y = true) caps ->
  comparable (fold_left add caps x) /\ valid (fold_left add caps x) = true.
Proof.
  revert x. induction caps as [|y caps IH]; intros x Hx Hv Hcaps; simpl;
    [now split|].
  inversion Hcaps as [|? ? Hy Hrest]; subst.
  apply IH; [now apply add_comparable | | assumption].
  apply add_valid; [assumption | now apply is_finite_valid].
Qed.

Section RegionFacts.

Context `{Builtins}.

Lemma newRegionStats_eq (l : list Customer) :
  newRegionStats l = sort by_total_desc (map to_region_stat (group_by_city l)).
Proof. now destruct l. Qed.

Lemma newChartData_eq (l : list Customer) :
  newChartData l = sort by_sum_desc (map to_chart_point (group_by_city l)).
Proof. now destruct l. Qed.

Lemma group_by_city_NoDup (l : list Customer) :
  NoDup (map fst (group_by_city l)).
Proof. apply fold_accumulate_NoDup. constructor. Qed.

(** An entry of the map is what its city's customers made of a new entry. *)
Lemma group_by_city_entry (l : list Customer) k e :
  In (k, e) (group_by_city l) ->
  customers_of k l <> [] /\ e = bump_all (customers_of k l) new_entry.
Proof.
  intros Hin. apply (In_get _ _ _ (group_by_city_NoDup l)) in Hin.
  unfold group_by_city in Hin. rewrite get_fold_accumulate in Hin.
  destruct (customers_of k l) as [|c cs]; [discriminate|].
  injection Hin as <-. split; [discriminate | reflexivity].
Qed.

Lemma region_stat_entry (l : list Customer) (r : RegionStat.t) :
  In r (newRegionStats l) ->
  customers_of (RegionStat.city r) l <> [] /\
  stat_entry r = bump_all (customers_of (RegionStat.city r) l) new_entry.
Proof.
  rewrite newRegionStats_eq. intros Hin.
  apply (Permutation_in _ (sort_perm _ _)) in Hin.
  apply in_map_iff in Hin as ([k e] & <- & Hin).
  destruct (group_by_city_entry l k e Hin) as [Hne ->].
  split; [assumption|]. unfold stat_entry, to_region_stat. simpl.
  now destruct (bump_all _ _).
Qed.



End RegionFacts.



(** ** Category sums and the total *)

Lemma add_zero_l (x : number) : same_value_zero (add zero x) x.
Proof.
  destruct x as [[|]| | |]; unfold same_value_zero, add, zero; simpl;
    try (left; reflexivity).
  right. now exists false, true.
Qed.

Lemma add_zero_r_same (x y : number) :
  same_value_zero x y -> same_value_zero (add x zero) y.
Proof.
  intros [->|(s & t & -> & ->)]; [apply add_zero_r|].
  right. destruct s; simpl; eauto.
Qed.

Lemma sum_Z_filter_le {A} (f : A -> Z) (P : A -> bool) (l : list A) :
  (forall a, In a l -> 0 <= f a) ->
  0 <= sum_Z (map f (filter P l)) <= sum_Z (map f l).
Proof.
  induction l as [|a l IH]; simpl; intros Hf; [lia|].
  assert (Ha : 0 <= f a) by (apply Hf; now left).
  assert (Hl : forall b, In b l -> 0 <= f b) by (intros b Hb; apply Hf; now right).
  specialize (IH Hl). destruct (P a); simpl; lia.
Qed.

Lemma sum_Z_cons (x : Z) (l : list Z) : sum_Z (x :: l) = x + sum_Z l.
Proof. reflexivity. Qed.

Lemma sum_Z_nonneg {A} (f : A -> Z) (l : list A) :
  (forall a, In a l -> 0 <= f a) -> 0 <= sum_Z (map f l).
Proof.
  induction l as [|a l IH]; simpl; intros Hf; [lia|].
  assert (Ha : 0 <= f a) by (apply Hf; now left).
  assert (Hl : 0 <= sum_Z (map f l)) by (apply IH; intros b Hb; apply Hf; now right).
  lia.
Qed.

Section CategoryFacts.

Context `{Builtins}.

Lemma fold_add_whole (mw : Customer -> Z) (cs : list Customer) (a : Z) :
  (forall c, In c cs -> 0 <= mw c /\ cap_of c = whole (mw c)) ->
  0 <= a -> a + sum_Z (map mw cs) < 2 ^ prec ->
  fold_left add (map cap_of cs) (whole a) = whole (a + sum_Z (map mw cs)).
Proof.
  revert a. induction cs as [|c cs IH]; intros a Hmw Ha Hsum.
  - simpl. now rewrite Z.add_0_r.
  - change (sum_Z (map mw (c :: cs))) with (mw c + sum_Z (map mw cs)) in *.
    cbn [map fold_left].
    destruct (Hmw c (or_introl eq_refl)) as [Hc Hcap].
    assert (Hrest : forall c', In c' cs -> 0 <= mw c' /\ cap_of c' = whole (mw c'))
      by (intros c' Hc'; apply Hmw; now right).
    assert (Hnn : 0 <= sum_Z (map mw cs))
      by (apply sum_Z_nonneg; intros c' Hc'; now apply Hrest).
    rewrite Hcap, add_whole by lia.
    rewrite IH by (try assumption; lia). f_equal. lia.
Qed.

Lemma sum_caps_whole (mw : Customer -> Z) (cs : list Customer) :
  (forall c, In c cs -> 0 <= mw c /\ cap_of c = whole (mw c)) ->
  sum_Z (map mw cs) < 2 ^ prec ->
  sum_caps cs = whole (sum_Z (map mw cs)).
Proof.
  intros Hmw Hsum. unfold sum_caps. change zero with (whole 0).
  now rewrite (fold_add_whole mw) by (try assumption; lia).
Qed.

Lemma sum_Z_categories (mw : Customer -> Z) (cs : list Customer) :
  sum_Z (map mw (filter (in_category Solar) cs))
  + sum_Z (map mw (filter (in_category Storage) cs))
  + sum_Z (map mw (filter (in_category Charging) cs))
  + sum_Z (map mw (filter (in_category Other) cs))
  = sum_Z (map mw cs).
Proof.
  induction cs as [|c cs IH]; [reflexivity|].
  cbn [filter].
  assert (Hin : forall cat,
            in_category cat c = category_eqb (category_of (type_of c)) cat)
    by reflexivity.
  rewrite !Hin.
  destruct (category_of (type_of c)); cbn [category_eqb map];
    rewrite !sum_Z_cons; lia.
Qed.

Lemma category_new_entry cat : category_mw cat new_entry = zero.
Proof. now destruct cat. Qed.

Lemma filter_all {A} (P : A -> bool) (l : list A) :
  (forall a, In a l -> P a = true) -> filter P l = l.
Proof.
  induction l as [|a l IH]; simpl; intros HP; [reflexivity|].
  rewrite (HP a (or_introl eq_refl)). f_equal. apply IH.
  intros b Hb. apply HP. now right.
Qed.

Lemma filter_none {A} (P : A -> bool) (l : list A) :
  (forall a, In a l -> P a = false) -> filter P l = [].
Proof.
  induction l as [|a l IH]; simpl; intros HP; [reflexivity|].
  rewrite (HP a (or_introl eq_refl)). apply IH.
  intros b Hb. apply HP. now right.
Qed.

Lemma in_category_other cat cat' (c : Customer) :
  in_category cat c = true -> cat' <> cat -> in_category cat' c = false.
Proof.
  unfold in_category.
  destruct (category_of (type_of c)), cat, cat'; simpl; congruence.
Qed.

(** The four sums of an entry built from the customers [cs] of one city. *)
Lemma four_sum_one_category (cs : list Customer) :
  (exists cat, forall c, In c cs -> in_category cat c = true) ->
  same_value_zero (four_sum (bump_all cs new_entry))
                  (total_mw (bump_all cs new_entry)).
Proof.
  intros (cat & Hcat). unfold four_sum.
  change (pv_mw ?e) with (category_mw Solar e).
  change (storage_mw ?e) with (category_mw Storage e).
  change (ev_mw ?e) with (category_mw Charging e).
  change (other_mw ?e) with (category_mw Other e).
  rewrite !bump_all_category, bump_all_total, !category_new_entry.
  change (total_mw new_entry) with zero.
  assert (Hno : forall cat', cat' <> cat -> filter (in_category cat') cs = []).
  { intros cat' Hne. apply filter_none. intros c Hc.
    apply (in_category_other cat); auto. }
  pose proof (filter_all (in_category cat) cs Hcat) as Hall.
  destruct cat; rewrite Hall.
  - rewrite (Hno Storage), (Hno Charging), (Hno Other) by discriminate. simpl.
    do 2 apply add_zero_r_same. apply add_zero_r.
  - rewrite (Hno Solar), (Hno Charging), (Hno Other) by discriminate. simpl.
    do 2 apply add_zero_r_same. apply add_zero_l.
  - rewrite (Hno Solar), (Hno Storage), (Hno Other) by discriminate. simpl.
    apply add_zero_r_same. apply add_zero_l.
  - rewrite (Hno Solar), (Hno Storage), (Hno Charging) by discriminate. simpl.
    apply add_zero_l.
Qed.

Lemma four_sum_whole (mw : Customer -> Z) (cs : list Customer) :
  (forall c, In c cs -> 0 <= mw c /\ cap_of c = whole (mw c)) ->
  sum_Z (map mw cs) < 2 ^ prec ->
  four_sum (bump_all cs new_entry) = total_mw (bump_all cs new_entry).
Proof.
  intros Hmw Hsum. unfold four_sum.
  change (pv_mw ?e) with (category_mw Solar e).
  change (storage_mw ?e) with (category_mw Storage e).
  change (ev_mw ?e) with (category_mw Charging e).
  change (other_mw ?e) with (category_mw Other e).
  rewrite !bump_all_category, bump_all_total, !category_new_entry.
  change (total_mw new_entry) with zero.
  fold (sum_caps cs). fold (sum_caps (filter (in_category Solar) cs)).
  fold (sum_caps (filter (in_category Storage) cs)).
  fold (sum_caps (filter (in_category Charging) cs)).
  fold (sum_caps (filter (in_category Other) cs)).
  assert (Hnn : forall c, In c cs -> 0 <= mw c) by (intros c Hc; now apply Hmw).
  pose proof (sum_Z_filter_le mw (in_category Solar) cs Hnn).
  pose proof (sum_Z_filter_le mw (in_category Storage) cs Hnn).
  pose proof (sum_Z_filter_le mw (in_category Charging) cs Hnn).
  pose proof (sum_Z_filter_le mw (in_category Other) cs Hnn).
  pose proof (sum_Z_categories mw cs) as Hparts.
  assert (Hsub : forall P c, In c (filter P cs) ->
                             0 <= mw c /\ cap_of c = whole (mw c))
    by (intros P c Hc; apply filter_In in Hc as [Hc _]; now apply Hmw).
  rewrite (sum_caps_whole mw cs Hmw Hsum).
  rewrite !(sum_caps_whole mw (filter _ cs)) by (try apply Hsub; lia).
  rewrite !add_whole by lia. now rewrite Hparts.
Qed.

End CategoryFacts.

(** ** One region stat per city *)

Section PerCity.

Context `{Builtins}.

Lemma region_stats_perm (l : list Customer) :
  Permutation (newRegionStats l) (map to_region_stat (group_by_city l)).
Proof. rewrite newRegionStats_eq. apply sort_perm. Qed.

Lemma region_stats_cities (l : list Customer) :
  Permutation (map RegionStat.city (newRegionStats l))
              (map fst (group_by_city l)).
Proof.
  rewrite (Permutation_map RegionStat.city (region_stats_perm l)).
  rewrite map_map. apply Permutation_refl'. apply map_ext. now intros [k e].
Qed.

Lemma region_stats_sites (l : list Customer) :
  stat_sites (newRegionStats l) = length l.
Proof.
  unfold stat_sites.
  rewrite (Permutation_map RegionStat.site_count (region_stats_perm l)).
  rewrite map_map.
  rewrite (map_ext _ (fun p => site_count (snd p))) by now intros [k e].
  change (sites (fold_left accumulate l []) = length l).
  now rewrite fold_accumulate_sites.
Qed.

(** C1, as the code has it: there is one region stat per distinct city of
    the input; the site counts add up to the number of customers; for each
    city, [site_count] is the number of its customers, [total_mw] is the sum
    of their coerced capacities and each category sum is the sum of the
    coerced capacities of its customers of that category, every sum being
    accumulated in binary64 from 0 in input order. [pv_mw + storage_mw +
    ev_mw + other_mw] equals [total_mw] when the customers of the city are
    all of one category (up to the sign of a zero), and when their capacities
    are whole numbers of megawatts that add up to less than 2^53. *)
Theorem region_stats_per_city (l : list Customer) :
  let stats := newRegionStats l in
  NoDup (map RegionStat.city stats) /\
  (forall k, In k (map RegionStat.city stats) <-> In k (map city l)) /\
  stat_sites stats = length l /\
  (forall r, In r stats ->
     let cs := customers_of (RegionStat.city r) l in
     RegionStat.site_count r = length cs /\
     RegionStat.total_mw r = sum_caps cs /\
     (forall cat, category_mw cat (stat_entry r)
                  = sum_caps (filter (in_category cat) cs)) /\
     ((exists cat, forall c, In c cs -> in_category cat c = true) ->
        same_value_zero (four_sum (stat_entry r)) (RegionStat.total_mw r)) /\
     (forall mw : Customer -> Z,
        (forall c, In c cs -> 0 <= mw c /\ cap_of c = whole (mw c)) ->
        sum_Z (map mw cs) < 2 ^ 53 ->
        four_sum (stat_entry r) = RegionStat.total_mw r)).
Proof.
  intros stats. subst stats.
  split; [|split; [|split]].
  - eapply Permutation_NoDup; [symmetry; apply region_stats_cities|].
    apply group_by_city_NoDup.
  - intros k. split; intros Hk.
    + apply (Permutation_in _ (region_stats_cities l)) in Hk.
      apply fold_accumulate_In in Hk as [[]|Hk]. exact Hk.
    + apply (Permutation_in _ (Permutation_sym (region_stats_cities l))).
      apply fold_accumulate_In. now right.
  - apply region_stats_sites.
  - intros r Hr cs. destruct (region_stat_entry l r Hr) as [_ He].
    fold cs in He.
    change (RegionStat.site_count r) with (site_count (stat_entry r)).
    change (RegionStat.total_mw r) with (total_mw (stat_entry r)).
    rewrite He. repeat split.
    + rewrite bump_all_site_count. simpl. lia.
    + now rewrite bump_all_total.
    + intros cat. now rewrite bump_all_category, category_new_entry.
    + intros Hone. now apply four_sum_one_category.
    + intros mw Hmw Hsum. now apply (four_sum_whole mw).
Qed.

End PerCity.

(** One site of 50 MW: the category sums add up to the total. *)
Lemma region_stats_per_city_witness :
  four_sum (stat_entry one_site_stat) = RegionStat.total_mw one_site_stat.
Proof.
  destruct (@region_stats_per_city integer_builtins one_site)
    as (_ & _ & _ & Hstat).
  destruct (Hstat one_site_stat (or_introl eq_refl)) as (_ & _ & _ & _ & Hwhole).
  apply (Hwhole (fun _ => 50)).
  - intros c [<-|[]]. split; [lia | reflexivity].
  - reflexivity.
Defined.

(** C1 as stated fails: with 0.1 MW solar, 0.2 MW storage and 0.4 MW solar in
    one city the total is 0.7000000000000001 while the four category sums add
    up to 0.7. *)
Lemma category_sums_round_apart :
  ~ (forall r, In r (@newRegionStats integer_builtins rounding_city) ->
               four_sum (stat_entry r) = RegionStat.total_mw r).
Proof.
  intros Hclaim.
  specialize (Hclaim (RegionStat.mk [65] 3 (decimal 5 1) (decimal 2 1) zero zero
                        (S754_finite false 6305039478318695 (-53)))).
  assert (Hin : In (RegionStat.mk [65] 3 (decimal 5 1) (decimal 2 1) zero zero
                      (S754_finite false 6305039478318695 (-53)))
                   (@newRegionStats integer_builtins rounding_city))
    by (left; vm_compute; reflexivity).
  specialize (Hclaim Hin). vm_compute in Hclaim. discriminate.
Qed.

(** ** Every customer in the row of its city *)

Lemma get_In (m : CityMap.t) k e : CityMap.get m k = Some e -> In (k, e) m.
Proof.
  induction m as [|[k' v] m IH]; simpl; [discriminate|].
  destruct (JsString.eqb k' k) eqn:E.
  - apply jsstring_eqb_eq in E. intros [= ->]. left. congruence.
  - intros Hg. right. now apply IH.
Qed.

Lemma add_same_value_zero (x x' y : number) :
  same_value_zero x x' -> same_value_zero (add x y) (add x' y).
Proof.
  intros [->|(s & t & -> & ->)]; [now left|].
  destruct y as [u|u| |u m e]; try (left; reflexivity).
  right. destruct s, t, u; simpl; eauto.
Qed.

Lemma fold_add_same_value_zero (caps : list number) (x x' : number) :
  same_value_zero x x' ->
  same_value_zero (fold_left add caps x) (fold_left add caps x').
Proof.
  revert x x'. induction caps as [|y caps IH]; intros x x' Hx; simpl;
    [assumption|].
  apply IH. now apply add_same_value_zero.
Qed.

(** A zero among the terms leaves a sum at its value. *)
Lemma fold_add_skip_zero (caps1 caps2 : list number) (x : number) :
  same_value_zero (fold_left add (caps1 ++ zero :: caps2) x)
                  (fold_left add (caps1 ++ caps2) x).
Proof.
  rewrite !fold_left_app. cbn [fold_left].
  apply fold_add_same_value_zero, add_zero_r.
Qed.

Section RowOfCustomer.

Context `{Builtins}.

(** The region stats are exactly the stats of the cities that have
    customers. *)
Lemma region_stat_iff (l : list Customer) (r : RegionStat.t) :
  In r (newRegionStats l) <->
  customers_of (RegionStat.city r) l <> [] /\
  stat_entry r = bump_all (customers_of (RegionStat.city r) l) new_entry.
Proof.
  split; [apply region_stat_entry|]. intros [Hne He].
  apply (Permutation_in _ (Permutation_sym (region_stats_perm l))).
  apply in_map_iff. exists (RegionStat.city r, stat_entry r). split.
  - now destruct r.
  - apply get_In. unfold group_by_city. rewrite get_fold_accumulate.
    destruct (customers_of (RegionStat.city r) l) eqn:E; [contradiction|].
    now rewrite He.
Qed.

Lemma customers_of_app (k : jsstring) (l1 l2 : list Customer) :
  customers_of k (l1 ++ l2) = customers_of k l1 ++ customers_of k l2.
Proof. apply filter_app. Qed.

Lemma customers_of_cons_same (c : Customer) (l : list Customer) :
  customers_of (city c) (c :: l) = c :: customers_of (city c) l.
Proof. unfold customers_of. cbn [filter]. now rewrite jsstring_eqb_refl. Qed.

Lemma customers_of_cons_other (c : Customer) (l : list Customer) k :
  city c <> k -> customers_of k (c :: l) = customers_of k l.
Proof.
  intros Hne. unfold customers_of. cbn [filter].
  apply jsstring_eqb_neq in Hne. now rewrite Hne.
Qed.

Lemma customers_of_In (c : Customer) (l : list Customer) :
  In c l -> In c (customers_of (city c) l).
Proof.
  intros Hc. apply filter_In. split; [assumption | apply jsstring_eqb_refl].
Qed.

(** The row of a city that has customers. *)
Lemma region_stat_of_city (l : list Customer) (k : jsstring) :
  customers_of k l <> [] ->
  exists r, In r (newRegionStats l) /\ RegionStat.city r = k /\
            stat_entry r = bump_all (customers_of k l) new_entry.
Proof.
  intros Hne.
  exists (to_region_stat (k, bump_all (customers_of k l) new_entry)).
  assert (He : stat_entry
                 (to_region_stat (k, bump_all (customers_of k l) new_entry))
               = bump_all (customers_of k l) new_entry)
    by (unfold stat_entry, to_region_stat; simpl;
        now destruct (bump_all _ _)).
  split; [|split; [reflexivity | exact He]].
  apply region_stat_iff. split; [exact Hne | exact He].
Qed.

Lemma region_stat_of_customer (l : list Customer) (c : Customer) :
  In c l ->
  exists r, In r (newRegionStats l) /\ RegionStat.city r = city c.
Proof.
  intros Hc. destruct (region_stat_of_city l (city c)) as (r & Hr & Hk & _).
  - intros Hnil. apply customers_of_In in Hc. now rewrite Hnil in Hc.
  - now exists r.
Qed.

Lemma region_stat_category (l : list Customer) (r : RegionStat.t) cat :
  In r (newRegionStats l) ->
  category_mw cat (stat_entry r)
  = sum_caps (filter (in_category cat) (customers_of (RegionStat.city r) l)).
Proof.
  intros Hr. destruct (region_stat_entry l r Hr) as [_ ->].
  now rewrite bump_all_category, category_new_entry.
Qed.

Lemma region_stat_total (l : list Customer) (r : RegionStat.t) :
  In r (newRegionStats l) ->
  RegionStat.total_mw r = sum_caps (customers_of (RegionStat.city r) l).
Proof.
  intros Hr. change (RegionStat.total_mw r) with (total_mw (stat_entry r)).
  destruct (region_stat_entry l r Hr) as [_ ->].
  now rewrite bump_all_total.
Qed.

Lemma in_category_counted (c : Customer) :
  in_category Solar c = counted_as_solar c /\
  in_category Storage c = counted_as_storage c /\
  in_category Charging c = counted_as_charging c /\
  in_category Other c = counted_as_other c.
Proof.
  unfold in_category, category_of, counted_as_solar, counted_as_storage,
    counted_as_charging, counted_as_other, has_marker.
  now repeat destruct (includes (type_of c) _).
Qed.

(** C2: every customer is counted in the row of its city, and there under
    one category, the first of solar, storage and charging whose marker its
    demand type contains, and other when it contains none: [pv_mw] is the sum
    of the coerced capacities of the city's customers whose demand type
    contains the solar marker, [storage_mw] of those whose demand type
    contains the storage marker and not the solar one, [ev_mw] of those whose
    demand type contains the charging marker and neither of the two others,
    [other_mw] of those whose demand type contains no marker, and every
    customer is in exactly one of the four groups. In particular a city whose
    customers all have the solar marker, with or without the storage marker
    beside it, has its whole total under [pv_mw] and 0 under the three other
    sums; a city whose customers have no marker, the empty demand type
    included, has its whole total under [other_mw]. *)
Theorem classification_first_match (l : list Customer) :
  (forall c, In c l ->
     exists r, In r (newRegionStats l) /\ RegionStat.city r = city c) /\
  (forall c,
     length (filter (fun counted => counted c)
               [counted_as_solar; counted_as_storage; counted_as_charging;
                counted_as_other]) = 1%nat) /\
  (forall r, In r (newRegionStats l) ->
     let cs := customers_of (RegionStat.city r) l in
     (RegionStat.pv_mw r = sum_caps (filter counted_as_solar cs) /\
      RegionStat.storage_mw r = sum_caps (filter counted_as_storage cs) /\
      RegionStat.ev_mw r = sum_caps (filter counted_as_charging cs) /\
      RegionStat.other_mw r = sum_caps (filter counted_as_other cs)) /\
     ((forall c, In c cs -> includes (type_of c) solar_marker = true) ->
        RegionStat.pv_mw r = RegionStat.total_mw r /\
        RegionStat.storage_mw r = zero /\ RegionStat.ev_mw r = zero /\
        RegionStat.other_mw r = zero) /\
     ((forall c, In c cs ->
         demand_type c = [] \/
         (includes (type_of c) solar_marker = false /\
          includes (type_of c) storage_marker = false /\
          includes (type_of c) charging_marker = false)) ->
        RegionStat.other_mw r = RegionStat.total_mw r /\
        RegionStat.pv_mw r = zero /\ RegionStat.storage_mw r = zero /\
        RegionStat.ev_mw r = zero)).
Proof.
  split; [apply region_stat_of_customer|]. split.
  - intros c. unfold counted_as_solar, counted_as_storage,
      counted_as_charging, counted_as_other, has_marker. cbn [filter].
    now repeat destruct (includes (type_of c) _).
  - intros r Hr cs.
    assert (Hsums :
      RegionStat.pv_mw r = sum_caps (filter counted_as_solar cs) /\
      RegionStat.storage_mw r = sum_caps (filter counted_as_storage cs) /\
      RegionStat.ev_mw r = sum_caps (filter counted_as_charging cs) /\
      RegionStat.other_mw r = sum_caps (filter counted_as_other cs)).
    { change (RegionStat.pv_mw r) with (category_mw Solar (stat_entry r)).
      change (RegionStat.storage_mw r)
        with (category_mw Storage (stat_entry r)).
      change (RegionStat.ev_mw r) with (category_mw Charging (stat_entry r)).
      change (RegionStat.other_mw r) with (category_mw Other (stat_entry r)).
      rewrite !(region_stat_category l r) by assumption. fold cs.
      repeat split; f_equal; apply filter_ext; intros c;
        apply (in_category_counted c). }
    split; [exact Hsums|].
    destruct Hsums as (Hpv & Hst & Hev & Hot).
    rewrite Hpv, Hst, Hev, Hot, (region_stat_total l r Hr). fold cs.
    split.
    + intros Hall.
      rewrite (filter_all counted_as_solar cs) by exact Hall.
      rewrite (filter_none counted_as_storage cs),
              (filter_none counted_as_charging cs),
              (filter_none counted_as_other cs);
        [repeat split | | |]; intros c Hc;
        unfold counted_as_storage, counted_as_charging, counted_as_other,
          has_marker; now rewrite (Hall c Hc).
    + intros Hnone.
      assert (Hno : forall c, In c cs ->
                includes (type_of c) solar_marker = false /\
                includes (type_of c) storage_marker = false /\
                includes (type_of c) charging_marker = false).
      { intros c Hc. destruct (Hnone c Hc) as [He|Hm]; [|exact Hm].
        unfold type_of. rewrite He. repeat split. }
      rewrite (filter_all counted_as_other cs),
              (filter_none counted_as_solar cs),
              (filter_none counted_as_storage cs),
              (filter_none counted_as_charging cs);
        [repeat split | | | |]; intros c Hc;
        destruct (Hno c Hc) as (H1 & H2 & H3);
        unfold counted_as_solar, counted_as_storage, counted_as_charging,
          counted_as_other, has_marker; now rewrite ?H1, ?H2, ?H3.
Qed.

(** C8: a customer whose capacity does not coerce to a number (it is absent,
    or [Number] answers [NaN] for it) is aggregated without error, wherever
    it stands among the customers: its coerced capacity is 0; the row of its
    city counts one site more than without the customer, and the total and
    the four category sums of that row have the values they have without the
    customer (up to the sign of a zero), all of them 0 when the city has no
    other customer; the rows of the other cities are what they are without
    the customer, and the sites counted in all are one more. *)
Theorem failed_coercion_counts_site_only (l1 l2 : list Customer)
    (c : Customer) :
  is_nan (Number (capacity_mw c)) = true ->
  cap_of c = zero /\
  (exists r, In r (newRegionStats (l1 ++ c :: l2)) /\
     RegionStat.city r = city c /\
     RegionStat.site_count r = S (length (customers_of (city c) (l1 ++ l2))) /\
     (customers_of (city c) (l1 ++ l2) = [] ->
        stat_entry r = mkEntry 1 zero zero zero zero zero) /\
     (forall r0, In r0 (newRegionStats (l1 ++ l2)) ->
        RegionStat.city r0 = city c ->
        RegionStat.site_count r = S (RegionStat.site_count r0) /\
        same_value_zero (RegionStat.total_mw r) (RegionStat.total_mw r0) /\
        same_value_zero (RegionStat.pv_mw r) (RegionStat.pv_mw r0) /\
        same_value_zero (RegionStat.storage_mw r) (RegionStat.storage_mw r0) /\
        same_value_zero (RegionStat.ev_mw r) (RegionStat.ev_mw r0) /\
        same_value_zero (RegionStat.other_mw r) (RegionStat.other_mw r0))) /\
  (forall r, RegionStat.city r <> city c ->
     (In r (newRegionStats (l1 ++ c :: l2))
      <-> In r (newRegionStats (l1 ++ l2)))) /\
  stat_sites (newRegionStats (l1 ++ c :: l2))
  = S (stat_sites (newRegionStats (l1 ++ l2))).
Proof.
  intros Hnan.
  assert (Hcap : cap_of c = zero) by (now apply or_zero_nan).
  assert (Hcs : customers_of (city c) (l1 ++ c :: l2)
                = customers_of (city c) l1 ++ c :: customers_of (city c) l2)
    by (now rewrite customers_of_app, customers_of_cons_same).
  assert (Hcat : forall cat,
            same_value_zero
              (category_mw cat
                 (bump_all (customers_of (city c) (l1 ++ c :: l2)) new_entry))
              (category_mw cat
                 (bump_all (customers_of (city c) (l1 ++ l2)) new_entry))).
  { intros cat. rewrite !bump_all_category, Hcs, customers_of_app.
    rewrite !filter_app. cbn [filter].
    destruct (in_category cat c); [|now left].
    rewrite !map_app. cbn [map]. rewrite Hcap. apply fold_add_skip_zero. }
  split; [exact Hcap|]. split; [|split].
  - destruct (region_stat_of_city (l1 ++ c :: l2) (city c))
      as (r & Hr & Hk & He).
    { rewrite Hcs. now destruct (customers_of (city c) l1). }
    exists r. split; [exact Hr|]. split; [exact Hk|].
    change (RegionStat.site_count r) with (site_count (stat_entry r)).
    change (RegionStat.total_mw r) with (total_mw (stat_entry r)).
    change (RegionStat.pv_mw r) with (category_mw Solar (stat_entry r)).
    change (RegionStat.storage_mw r) with (category_mw Storage (stat_entry r)).
    change (RegionStat.ev_mw r) with (category_mw Charging (stat_entry r)).
    change (RegionStat.other_mw r) with (category_mw Other (stat_entry r)).
    rewrite He. split; [|split].
    + rewrite bump_all_site_count, Hcs, customers_of_app, !length_app.
      simpl. lia.
    + rewrite Hcs, customers_of_app. intros Hnil.
      apply app_eq_nil in Hnil as [-> ->]. cbn [app bump_all fold_left].
      rewrite Hcap. unfold bump, new_entry.
      now repeat destruct (includes (type_of c) _).
    + intros r0 Hr0 Hk0. destruct (region_stat_entry _ r0 Hr0) as [_ He0].
      rewrite Hk0 in He0.
      change (RegionStat.site_count r0) with (site_count (stat_entry r0)).
      change (RegionStat.total_mw r0) with (total_mw (stat_entry r0)).
      change (RegionStat.pv_mw r0) with (category_mw Solar (stat_entry r0)).
      change (RegionStat.storage_mw r0)
        with (category_mw Storage (stat_entry r0)).
      change (RegionStat.ev_mw r0) with (category_mw Charging (stat_entry r0)).
      change (RegionStat.other_mw r0) with (category_mw Other (stat_entry r0)).
      rewrite He0. split; [|split; [|repeat split; apply Hcat]].
      * rewrite !bump_all_site_count, Hcs, customers_of_app, !length_app.
        simpl. lia.
      * rewrite !bump_all_total, Hcs, customers_of_app, !map_app.
        cbn [map]. rewrite Hcap. apply fold_add_skip_zero.
  - intros r Hne. rewrite !region_stat_iff, !customers_of_app.
    now rewrite customers_of_cons_other by congruence.
  - rewrite !region_stats_sites, !length_app. simpl. lia.
Qed.

End RowOfCustomer.

(** The pilot has both markers and is counted as solar: 2.5 + 1.5 MW of
    solar and no storage in Hangzhou. *)
Lemma classification_first_match_witness :
  RegionStat.pv_mw pilot_stat = RegionStat.total_mw pilot_stat /\
  RegionStat.storage_mw pilot_stat = zero.
Proof.
  destruct (@classification_first_match integer_builtins pilot_sites)
    as (_ & _ & Hrow).
  destruct (Hrow pilot_stat (or_introl eq_refl)) as (_ & Hsolar & _).
  destruct Hsolar as (Hpv & Hst & _).
  - intros c [<-|[<-|[]]]; reflexivity.
  - split; assumption.
Defined.

(** A customer of Hangzhou without a capacity, after one site of 2.5 MW in
    Hangzhou and one of 50 MW in Ningbo: Hangzhou counts two sites and
    2.5 MW. *)
Lemma failed_coercion_counts_site_only_witness :
  exists r,
    In r (@newRegionStats integer_builtins sites_with_gap) /\
    RegionStat.city r = hangzhou /\ RegionStat.site_count r = 2%nat.
Proof.
  destruct (@failed_coercion_counts_site_only integer_builtins
              (sample_mock ++ one_site) [] no_capacity_customer eq_refl)
    as (_ & (r & Hr & Hk & Hn & _) & _).
  exists r. split; [|split].
  - unfold sites_with_gap. rewrite app_assoc. exact Hr.
  - exact Hk.
  - exact Hn.
Defined.

(** ** The chart against the table *)

Lemma sort_insert_map {A B} (f : A -> B) (cmpA : A -> A -> number)
    (cmpB : B -> B -> number) (a : A) (l : list A) :
  (forall b, In b l ->
     is_positive (cmpB (f a) (f b)) = is_positive (cmpA a b)) ->
  sort_insert cmpB (f a) (map f l) = map f (sort_insert cmpA a l).
Proof.
  induction l as [|b l IH]; simpl; intros Hcmp; [reflexivity|].
  rewrite (Hcmp b (or_introl eq_refl)).
  destruct (is_positive (cmpA a b)); [|reflexivity].
  simpl. f_equal. apply IH. intros c Hc. apply Hcmp. now right.
Qed.

Lemma sort_map {A B} (f : A -> B) (cmpA : A -> A -> number)
    (cmpB : B -> B -> number) (l : list A) :
  (forall a b, In a l -> In b l ->
     is_positive (cmpB (f a) (f b)) = is_positive (cmpA a b)) ->
  sort cmpB (map f l) = map f (sort cmpA l).
Proof.
  induction l as [|a l IH]; simpl; intros Hcmp; [reflexivity|].
  rewrite IH by (intros; apply Hcmp; now right).
  apply sort_insert_map. intros b Hb. apply Hcmp; [now left | right].
  now apply (Permutation_in _ (sort_perm cmpA l)).
Qed.

Section ChartFacts.

Context `{Builtins}.

Lemma chart_points_of_stats (l : list Customer) :
  map to_chart_point (group_by_city l)
  = map stat_point (map to_region_stat (group_by_city l)).
Proof. rewrite map_map. apply map_ext. now intros [k e]. Qed.

Lemma whole_capacities_four_sum (l : list Customer) (mw : Customer -> Z) :
  (forall c, In c l -> 0 <= mw c /\ cap_of c = whole (mw c)) ->
  sum_Z (map mw l) < 2 ^ prec ->
  Forall (fun r => four_sum (stat_entry r) = RegionStat.total_mw r)
         (newRegionStats l).
Proof.
  intros Hmw Hsum. apply Forall_forall. intros r Hr.
  destruct (region_stat_entry l r Hr) as [_ He].
  change (RegionStat.total_mw r) with (total_mw (stat_entry r)).
  rewrite He. apply (four_sum_whole mw).
  - intros c Hc. apply filter_In in Hc as [Hc _]. now apply Hmw.
  - pose proof (sum_Z_filter_le mw
                  (fun c => JsString.eqb (city c) (RegionStat.city r)) l
                  (fun c Hc => proj1 (Hmw c Hc))) as Hle.
    unfold customers_of. lia.
Qed.

(** C7, as the code has it: the chart points are the region stats with
    their fields renamed, in some order. When for every city [pv_mw +
    storage_mw + ev_mw + other_mw], added in binary64, equals [total_mw], the
    two sorts use the same keys: the chart lists the cities in the order of
    the region stats and each point has the four values of its stat. That is
    so in particular when the capacities are whole numbers of megawatts that
    add up to less than 2^53. *)
Theorem chart_follows_region_stats (l : list Customer) :
  Permutation (newChartData l) (map stat_point (newRegionStats l)) /\
  (Forall (fun r => four_sum (stat_entry r) = RegionStat.total_mw r)
          (newRegionStats l) ->
   map ChartDataPoint.name (newChartData l)
   = map RegionStat.city (newRegionStats l) /\
   newChartData l = map stat_point (newRegionStats l)) /\
  (forall mw : Customer -> Z,
     (forall c, In c l -> 0 <= mw c /\ cap_of c = whole (mw c)) ->
     sum_Z (map mw l) < 2 ^ 53 ->
     map ChartDataPoint.name (newChartData l)
     = map RegionStat.city (newRegionStats l) /\
     newChartData l = map stat_point (newRegionStats l)).
Proof.
  assert (Hsame :
    Forall (fun r => four_sum (stat_entry r) = RegionStat.total_mw r)
           (newRegionStats l) ->
    map ChartDataPoint.name (newChartData l)
    = map RegionStat.city (newRegionStats l) /\
    newChartData l = map stat_point (newRegionStats l)).
  { rewrite newChartData_eq, newRegionStats_eq, chart_points_of_stats.
    intros Hsum.
    assert (Heq : sort by_sum_desc
                    (map stat_point (map to_region_stat (group_by_city l)))
                  = map stat_point
                      (sort by_total_desc
                         (map to_region_stat (group_by_city l)))).
    { apply sort_map. intros a b Ha Hb.
      rewrite Forall_forall in Hsum.
      assert (Hkey : forall r,
                In r (map to_region_stat (group_by_city l)) ->
                chart_sum (stat_point r) = RegionStat.total_mw r).
      { intros r Hr. apply Hsum.
        now apply (Permutation_in _ (Permutation_sym (sort_perm _ _))). }
      unfold by_sum_desc, by_total_desc. now rewrite !Hkey. }
    rewrite Heq. split; [|reflexivity].
    rewrite map_map. reflexivity. }
  split; [|split].
  - rewrite newChartData_eq, newRegionStats_eq, chart_points_of_stats.
    rewrite sort_perm. apply Permutation_map. symmetry. apply sort_perm.
  - exact Hsame.
  - intros mw Hmw Hsum. apply Hsame.
    now apply (whole_capacities_four_sum l mw).
Qed.

End ChartFacts.

(** Cities A, B and C with 10, 50 and 30 MW: the chart follows the table. *)
Lemma chart_follows_region_stats_witness :
  map ChartDataPoint.name (@newChartData integer_builtins three_cities)
  = map RegionStat.city (@newRegionStats integer_builtins three_cities).
Proof.
  refine (proj1 (proj1 (proj2 (@chart_follows_region_stats integer_builtins
                                 three_cities)) _)).
  repeat constructor.
Defined.

(** C7 as stated fails: city B has 0.7 MW, city A has 0.1 + 0.2 + 0.4 MW, a
    total of 0.7000000000000001 and category sums that add up to 0.7. The
    table lists A before B; for the chart the two cities tie and keep their
    order of first appearance, B before A. *)
Lemma chart_order_differs :
  map RegionStat.city (@newRegionStats integer_builtins rounding_customers)
    = [[65]; [66]] /\
  map ChartDataPoint.name (@newChartData integer_builtins rounding_customers)
    = [[66]; [65]] /\
  map ChartDataPoint.name (@newChartData integer_builtins rounding_customers)
  <> map RegionStat.city (@newRegionStats integer_builtins rounding_customers).
Proof.
  repeat split; try (vm_compute; reflexivity).
  vm_compute. discriminate.
Qed.

(** * Further properties of the code *)

(** ** The client configuration *)

Lemma truthy_entry_not_empty env key v :
  truthy_entry env key = Some v -> v <> [].
Proof.
  unfold truthy_entry. destruct env as [e|]; [|discriminate].
  destruct (e key) as [w|]; [|discriminate].
  destruct w; simpl; [discriminate|]. intros [= <-]. discriminate.
Qed.

Lemma getEnvVar_cases (env : Environment) (key : jsstring) :
  (truthy_entry (meta_env env) key = Some (getEnvVar env key)) \/
  (truthy_entry (meta_env env) key = None /\
   truthy_entry (process_env env) key = Some (getEnvVar env key)) \/
  (truthy_entry (meta_env env) key = None /\
   truthy_entry (process_env env) key = None /\ getEnvVar env key = []).
Proof.
  unfold getEnvVar.
  destruct (truthy_entry (meta_env env) key); [now left|].
  destruct (truthy_entry (process_env env) key); right; [left | right]; auto.
Qed.

(** X1: whatever the environment holds, [createClient] is given a URL that
    starts with "http" and a key that is not empty. A URL configured in
    [import.meta.env] that starts with "http" is passed as it is; a variable
    that [import.meta.env] holds as the empty string counts as missing, and
    the value of [process.env] is then used. *)
Theorem client_configuration_usable (env : Environment) :
  starts_with http (validUrl env) = true /\
  validKey env <> [] /\
  (forall e url, meta_env env = Some e -> e VITE_SUPABASE_URL = Some url ->
     starts_with http url = true -> validUrl env = url) /\
  (forall e p key v, meta_env env = Some e -> e key = Some [] ->
     process_env env = Some p -> p key = Some v -> getEnvVar env key = v).
Proof.
  repeat split.
  - unfold validUrl.
    destruct (starts_with http (supabaseUrl env)) eqn:E;
      [|now rewrite andb_false_r].
    now destruct (negb _).
  - unfold validKey. destruct (supabaseKey env); simpl; discriminate.
  - intros e url He Hurl Hhttp.
    assert (Hs : supabaseUrl env = url).
    { unfold supabaseUrl, getEnvVar. unfold truthy_entry at 1.
      rewrite He, Hurl. destruct url; [discriminate | reflexivity]. }
    unfold validUrl. rewrite Hs, Hhttp.
    destruct url; [discriminate | reflexivity].
  - intros e p key v He Hkey Hp Hv. unfold getEnvVar, truthy_entry.
    rewrite He, Hkey, Hp, Hv. simpl. now destruct v.
Qed.

(** The URL of [import.meta.env] is empty and [process.env] has one. *)
Lemma client_configuration_usable_witness :
  getEnvVar sample_environment VITE_SUPABASE_URL = http ++ [58; 47; 47; 120].
Proof.
  refine (proj2 (proj2 (proj2 (client_configuration_usable sample_environment)))
            _ _ VITE_SUPABASE_URL _ eq_refl _ eq_refl _);
    reflexivity.
Defined.

(** ** Fetching *)

Section FetchFacts.

Context `{Builtins}.
Variable MOCK_CUSTOMERS : list Customer.

Lemma fetchCustomers_customers (res : Response (list Row)) (st : AppState) :
  customers (fetchCustomers MOCK_CUSTOMERS res st) = MOCK_CUSTOMERS \/
  exists d rows, res = Resolved (Some (d :: rows)) None /\
    customers (fetchCustomers MOCK_CUSTOMERS res st) = map map_row (d :: rows).
Proof.
  destruct res as [|[[|d rows]|] [err|]]; simpl; eauto.
Qed.

(** X2: provided the mock dataset is not empty, a fetch never leaves the
    customer set empty, whatever the remote [list()] did; it ends with
    [loading] off, raises no alert, and its customers do not depend on the
    ones held before. *)
Theorem fetch_never_leaves_empty (res : Response (list Row)) (st : AppState) :
  MOCK_CUSTOMERS <> [] ->
  customers (fetchCustomers MOCK_CUSTOMERS res st) <> [] /\
  loading (fetchCustomers MOCK_CUSTOMERS res st) = false /\
  alerts (fetchCustomers MOCK_CUSTOMERS res st) = alerts st /\
  (forall st', customers (fetchCustomers MOCK_CUSTOMERS res st')
               = customers (fetchCustomers MOCK_CUSTOMERS res st)).
Proof.
  intros Hmock. split; [|repeat split].
  destruct (fetchCustomers_customers res st) as [-> | (d & rows & _ & ->)];
    [assumption | discriminate].
Qed.

(** X3: when [list()] resolves without error to one row or more, the shell
    holds one customer per row, in the order of the rows; each has the id,
    company, province, city and demand type of its row, [Number] of the
    row's capacity as its capacity, and the row's industry, contact name and
    contact phone with the empty string in place of a missing one. *)
Theorem fetch_maps_rows_in_order (rows : list Row) (st : AppState) :
  rows <> [] ->
  let cs := customers (fetchCustomers MOCK_CUSTOMERS
                         (Resolved (Some rows) None) st) in
  length cs = length rows /\
  forall i d, nth_error rows i = Some d ->
    exists c, nth_error cs i = Some c /\
      id c = row_id d /\ company_name c = row_company_name d /\
      province c = row_province d /\ city c = row_city d /\
      demand_type c = row_demand_type d /\
      capacity_mw c = JSnumber (Number (row_capacity_mw d)) /\
      industry c = text_or_empty (row_industry d) /\
      contact c = text_or_empty (row_contact_name d) /\
      phone c = text_or_empty (row_contact_phone d).
Proof.
  intros Hrows cs.
  assert (Hcs : cs = map map_row rows)
    by (destruct rows; [contradiction | reflexivity]).
  rewrite Hcs. split; [apply length_map|].
  intros i d Hd. exists (map_row d). split; [now apply map_nth_error|].
  repeat split.
Qed.

End FetchFacts.

Lemma fetch_never_leaves_empty_witness :
  customers (@fetchCustomers integer_builtins sample_mock
               (Resolved None None) sample_state) <> [].
Proof.
  refine (proj1 (@fetch_never_leaves_empty integer_builtins sample_mock
                   (Resolved None None) sample_state _)).
  discriminate.
Defined.

Lemma fetch_maps_rows_in_order_witness :
  length (customers (@fetchCustomers integer_builtins sample_mock
                       (Resolved (Some sample_rows) None) sample_state)) = 2%nat.
Proof.
  refine (proj1 (@fetch_maps_rows_in_order integer_builtins sample_mock
                   sample_rows sample_state _)).
  discriminate.
Defined.

(** ** Registering *)

Lemma is_failed_iff {A} (res : Response A) : is_failed res = true <-> failed res.
Proof. destruct res as [|d [e|]]; simpl; intuition discriminate. Qed.

Lemma includes_cons (s needle : jsstring) (u : code_unit) :
  includes (u :: s) needle = starts_with needle (u :: s) || includes s needle.
Proof. reflexivity. Qed.

(** A prefix without the first unit of the needle cannot hold its start. *)
Lemma includes_skip_prefix (p s : jsstring) (n0 : code_unit) (rest : jsstring) :
  Forall (fun u => u <> n0) p ->
  includes (p ++ s) (n0 :: rest) = includes s (n0 :: rest).
Proof.
  induction 1 as [|u p Hu Hp IH]; [reflexivity|].
  change ((u :: p) ++ s) with (u :: p ++ s). rewrite includes_cons, IH.
  cbn [starts_with]. apply Z.eqb_neq in Hu. rewrite Z.eqb_sym in Hu.
  now rewrite Hu.
Qed.

Lemma category_of_other_prefix (detail : jsstring) :
  category_of (other_type ++ [hyphen] ++ detail) = category_of detail.
Proof.
  unfold category_of, solar_marker, storage_marker, charging_marker.
  change (other_type ++ [hyphen] ++ detail)
    with ([20854; 20182; 45] ++ detail).
  rewrite !includes_skip_prefix; [reflexivity | | | ];
    repeat constructor; discriminate.
Qed.

Section RegisterFacts.

Context `{Builtins}.
Variable MOCK_CUSTOMERS : list Customer.

(** X4: when the remote [insert()] succeeds the shell does what a fetch
    does with the answer of the refetch: no alert is raised, and the
    resulting customers depend neither on the submitted form, nor on the
    random identifier, nor on the customers held before, so that customers
    added locally after earlier failures are kept only if the refetch
    returns them. *)
Theorem successful_insert_refetches (inserted : Response unit)
    (refetched : Response (list Row)) (random_id : jsstring)
    (data : FormData) (st : AppState) :
  is_failed inserted = false ->
  handleNewRegistration MOCK_CUSTOMERS inserted refetched random_id data st
  = fetchCustomers MOCK_CUSTOMERS refetched st /\
  alerts (handleNewRegistration MOCK_CUSTOMERS inserted refetched random_id
                                data st) = alerts st /\
  forall random_id' data' st',
    customers (handleNewRegistration MOCK_CUSTOMERS inserted refetched
                 random_id' data' st')
    = customers (fetchCustomers MOCK_CUSTOMERS refetched initial_state).
Proof.
  intros Hok. destruct inserted as [|d [e|]]; try discriminate.
  repeat split.
Qed.

Lemma failed_insert_customers (inserted : Response unit)
    (refetched : Response (list Row)) (random_id : jsstring)
    (data : FormData) (st : AppState) :
  failed inserted ->
  handleNewRegistration MOCK_CUSTOMERS inserted refetched random_id data st
  = alert (updateLocalState random_id (dbPayload data) st).
Proof. destruct inserted as [|d [e|]]; simpl; intros []; reflexivity. Qed.

(** X5: when the remote [insert()] fails exactly one alert is raised and
    [loading] is left as it is; the region stats recomputed from the new
    customer set count one site more in total, list the submitted city, and
    give every city the site count of its former customers, plus one for the
    submitted city. *)
Theorem failed_insert_counts_one_site (inserted : Response unit)
    (refetched : Response (list Row)) (random_id : jsstring)
    (data : FormData) (st : AppState) :
  failed inserted ->
  let st' := handleNewRegistration MOCK_CUSTOMERS inserted refetched
                                   random_id data st in
  alerts st' = S (alerts st) /\
  loading st' = loading st /\
  stat_sites (newRegionStats (customers st'))
  = S (stat_sites (newRegionStats (customers st))) /\
  In (city_field data) (map RegionStat.city (newRegionStats (customers st'))) /\
  (forall r, In r (newRegionStats (customers st')) ->
     RegionStat.site_count r
     = ((if JsString.eqb (city_field data) (RegionStat.city r) then 1 else 0)
        + length (customers_of (RegionStat.city r) (customers st)))%nat).
Proof.
  intros Hfail st'. subst st'. rewrite (failed_insert_customers _ _ _ _ _ Hfail).
  cbn [alert updateLocalState customers loading alerts].
  set (c := mkCustomer _ _ _ _ _ _ _ _ _).
  repeat split.
  - now rewrite !region_stats_sites.
  - apply (Permutation_in _ (Permutation_sym (region_stats_cities _))).
    apply fold_accumulate_In. right. now left.
  - intros r Hr. destruct (region_stat_entry _ r Hr) as [_ He].
    change (RegionStat.site_count r) with (site_count (stat_entry r)).
    rewrite He, bump_all_site_count. cbn [customers_of filter].
    fold (customers_of (RegionStat.city r) (customers st)).
    change (city c) with (city_field data).
    destruct (JsString.eqb (city_field data) (RegionStat.city r)); simpl; lia.
Qed.

(** X6: when the insert fails on a form whose demand type is "other", the
    customer added has as demand type "other", a hyphen and the detail typed,
    or plain "other" when no detail was typed; in the region stats recomputed
    from the new customer set, the row of the submitted city has the new
    capacity as the first term of the sum of the category of the detail
    alone (other, unless the detail itself contains the solar, the storage or
    the charging marker), and its three other category sums are those of the
    former customers of the city. With any other demand type the detail is
    ignored. *)
Theorem registered_other_type (inserted : Response unit)
    (refetched : Response (list Row)) (random_id : jsstring)
    (data : FormData) (st : AppState) :
  failed inserted ->
  let st' := handleNewRegistration MOCK_CUSTOMERS inserted refetched
                                   random_id data st in
  let detail := demandTypeOther data in
  let former := customers_of (city_field data) (customers st) in
  exists c r,
    customers st' = c :: customers st /\
    In r (newRegionStats (customers st')) /\
    RegionStat.city r = city_field data /\
    (demandType data <> other_type -> demand_type c = demandType data) /\
    (demandType data = other_type ->
       demand_type c = match detail with
                       | [] => other_type
                       | _ :: _ => other_type ++ [hyphen] ++ detail
                       end /\
       forall cat,
         category_mw cat (stat_entry r)
         = fold_left add (map cap_of (filter (in_category cat) former))
             (if category_eqb (category_of detail) cat
              then add zero (cap_of c) else zero)).
Proof.
  intros Hfail st' detail former. subst st'.
  rewrite (failed_insert_customers _ _ _ _ _ Hfail).
  cbn [alert updateLocalState customers].
  set (c := mkCustomer _ _ _ _ _ _ _ _ _).
  destruct (region_stat_of_city (c :: customers st) (city_field data))
    as (r & Hr & Hk & He).
  { change (city_field data) with (city c). rewrite customers_of_cons_same.
    discriminate. }
  exists c, r.
  split; [reflexivity|]. split; [exact Hr|]. split; [exact Hk|]. split.
  - intros Ht. subst c. cbn [demand_type]. unfold dbPayload.
    cbn [p_demand_type]. apply jsstring_eqb_neq in Ht. now rewrite Ht.
  - intros Ht.
    assert (Hd : demand_type c = match detail with
                                 | [] => other_type
                                 | _ :: _ => other_type ++ [hyphen] ++ detail
                                 end).
    { subst c. cbn [demand_type]. unfold dbPayload. cbn [p_demand_type].
      rewrite Ht, jsstring_eqb_refl. fold detail. now destruct detail. }
    split; [exact Hd|]. intros cat. rewrite He.
    change (city_field data) with (city c). rewrite customers_of_cons_same.
    change (customers_of (city c) (customers st)) with former.
    rewrite bump_all_category. cbn [filter].
    assert (Hc : in_category cat c = category_eqb (category_of detail) cat).
    { unfold in_category, type_of. rewrite Hd. destruct detail as [|u d].
      - reflexivity.
      - change (or_empty (other_type ++ [hyphen] ++ u :: d))
          with (other_type ++ [hyphen] ++ u :: d).
        now rewrite category_of_other_prefix. }
    rewrite Hc.
    destruct (category_eqb (category_of detail) cat); cbn [map fold_left];
      now rewrite category_new_entry.
Qed.

End RegisterFacts.

(** The insert succeeds and the refetch throws: the mock dataset is shown. *)
Lemma successful_insert_refetches_witness :
  customers (@handleNewRegistration integer_builtins sample_mock
               (Resolved None None) Threw [48] sample_form sample_state)
  = sample_mock.
Proof.
  exact (f_equal customers
           (proj1 (@successful_insert_refetches integer_builtins sample_mock
                     (Resolved None None) Threw [48] sample_form sample_state
                     eq_refl))).
Defined.

(** The insert throws: one alert. *)
Lemma failed_insert_counts_one_site_witness :
  alerts (@handleNewRegistration integer_builtins sample_mock Threw Threw [48]
            sample_form sample_state) = 1%nat.
Proof.
  exact (proj1 (@failed_insert_counts_one_site integer_builtins sample_mock
                  Threw Threw [48] sample_form sample_state I)).
Defined.

(** A failed insert of a form of type "other" whose detail names storage:
    the customer added is stored as "other-storage" and its 12 MW are in the
    storage sum of Ningbo. *)
Lemma registered_other_type_witness :
  exists c r,
    customers (@handleNewRegistration integer_builtins sample_mock Threw Threw
                 [48] storage_detail_form sample_state) = [c] /\
    In r (@newRegionStats integer_builtins [c]) /\
    demand_type c = other_type ++ [hyphen] ++ storage_marker /\
    RegionStat.storage_mw r = add zero (@cap_of integer_builtins c).
Proof.
  destruct (@registered_other_type integer_builtins sample_mock Threw Threw
              [48] storage_detail_form sample_state I)
    as (c & r & Hc & Hr & _ & _ & Hother).
  destruct (Hother eq_refl) as (Hd & Hcat).
  exists c, r. split; [exact Hc|]. split; [|split].
  - rewrite Hc in Hr. exact Hr.
  - exact Hd.
  - exact (Hcat Storage).
Defined.

(** ** The shell over time *)

Lemma chart_data_length `{Builtins} (l : list Customer) :
  length (newChartData l) = length (newRegionStats l).
Proof.
  rewrite newChartData_eq, newRegionStats_eq.
  rewrite (Permutation_length (sort_perm _ _)).
  rewrite (Permutation_length (sort_perm _ _)).
  now rewrite !length_map.
Qed.

Section TraceFacts.

Context `{Builtins}.
Variable MOCK_CUSTOMERS : list Customer.
Hypothesis mock_not_empty : MOCK_CUSTOMERS <> [].

Lemma step_customers_not_empty (st : AppState) (ev : Event) :
  customers (step MOCK_CUSTOMERS st ev) <> [].
Proof.
  destruct ev as [res|inserted refetched random_id data]; cbn [step].
  - destruct (fetchCustomers_customers MOCK_CUSTOMERS res st)
      as [-> | (d & rows & _ & ->)]; [assumption | discriminate].
  - destruct inserted as [|d [e|]]; cbn [handleNewRegistration];
      try (simpl; discriminate).
    destruct (fetchCustomers_customers MOCK_CUSTOMERS refetched st)
      as [-> | (d' & rows & _ & ->)]; [assumption | discriminate].
Qed.

Lemma step_alerts (st : AppState) (ev : Event) :
  alerts (step MOCK_CUSTOMERS st ev)
  = ((if failed_submission ev then 1 else 0) + alerts st)%nat.
Proof.
  destruct ev as [res|[|d [e|]] refetched random_id data]; reflexivity.
Qed.

Lemma run_alerts (events : list Event) (st : AppState) :
  alerts (run MOCK_CUSTOMERS events st)
  = (length (filter failed_submission events) + alerts st)%nat.
Proof.
  revert st. induction events as [|ev events IH]; intros st; [reflexivity|].
  change (run MOCK_CUSTOMERS (ev :: events) st)
    with (run MOCK_CUSTOMERS events (step MOCK_CUSTOMERS st ev)).
  rewrite IH, step_alerts. simpl.
  destruct (failed_submission ev); simpl; lia.
Qed.

(** X7: provided the mock dataset is not empty, once the mount fetch or any
    submission has settled the customer set is not empty, and it stays so
    whatever settles afterwards, in whatever order; the region stats and the
    chart data computed from it are then not empty either. The alerts raised
    are as many as the submissions whose insert failed: a failed fetch
    raises none. *)
Theorem dashboard_never_empty (events : list Event) :
  events <> [] ->
  let st := run MOCK_CUSTOMERS events initial_state in
  customers st <> [] /\
  newRegionStats (customers st) <> [] /\
  newChartData (customers st) <> [] /\
  alerts st = length (filter failed_submission events).
Proof.
  intros Hev st.
  assert (Hcs : customers st <> []).
  { subst st. destruct (exists_last Hev) as (events' & ev & ->).
    unfold run. rewrite fold_left_app. apply step_customers_not_empty. }
  split; [assumption|].
  assert (Hstats : newRegionStats (customers st) <> []).
  { intros Hnil. apply Hcs. apply length_zero_iff_nil.
    rewrite <- region_stats_sites, Hnil. reflexivity. }
  split; [assumption|]. split.
  - intros Hnil. apply Hstats. apply length_zero_iff_nil.
    now rewrite <- chart_data_length, Hnil.
  - subst st. rewrite run_alerts. simpl. lia.
Qed.

End TraceFacts.

(** The mount fetch throws, then an insert throws. *)
Lemma dashboard_never_empty_witness :
  alerts (@run integer_builtins sample_mock
            [Mounted Threw; Submitted Threw Threw [48] sample_form]
            initial_state) = 1%nat.
Proof.
  refine (proj2 (proj2 (proj2
            (@dashboard_never_empty integer_builtins sample_mock _
               [Mounted Threw; Submitted Threw Threw [48] sample_form] _))));
    discriminate.
Defined.

(** ** What masking a phone leaves visible *)

Lemma replace_phone_shape (s : jsstring) :
  replace_phone s = s \/
  exists pre d post,
    s = pre ++ d ++ post /\ length d = 11%nat /\ forallb is_digit d = true /\
    replace_phone s = pre ++ firstn 3 d ++ mask4 ++ skipn 7 d ++ post.
Proof.
  induction s as [|u s IH].
  - left. rewrite replace_phone_eq.
    destruct (match_phone_here []) eqn:E; [discriminate | reflexivity].
  - rewrite replace_phone_eq.
    destruct (match_phone_here (u :: s)) as [[[g1 g2] rest]|] eqn:E.
    + right. rewrite match_phone_here_spec in E.
      destruct (_ && _) eqn:E'; [|discriminate]. injection E as <- <- <-.
      apply andb_true_iff in E' as [Hlen Hdig]. apply Nat.leb_le in Hlen.
      exists [], (firstn 11 (u :: s)), (skipn 11 (u :: s)).
      rewrite length_firstn. repeat split;
        [symmetry; apply (firstn_skipn 11 (u :: s)) | lia | assumption |].
      change ([] ++ ?x) with x. f_equal.
      * now rewrite firstn_firstn.
      * f_equal. f_equal.
        rewrite <- (firstn_skipn 7 (firstn 11 (u :: s))) at 1.
        rewrite firstn_firstn. simpl Nat.min.
        rewrite skipn_firstn_comm. simpl Nat.sub.
        rewrite skipn_app, length_firstn.
        replace (7 - Nat.min 7 (length (u :: s)))%nat with 0%nat by lia.
        rewrite skipn_all2 by (rewrite length_firstn; lia). reflexivity.
    + destruct IH as [IH|(pre & d & post & -> & Hlen & Hdig & IH)].
      * left. now rewrite IH.
      * right. exists (u :: pre), d, post. rewrite IH. repeat split; assumption.
Qed.

(** X8: masking a phone keeps the length of the string and changes at most
    four consecutive places, where digits are replaced by asterisks; all the
    rest of the string, a second phone number included, stays as it was. *)
Theorem maskPhone_hides_four_digits (s : jsstring) :
  length (maskPhone s) = length s /\
  (maskPhone s = s \/
   exists pre mid post,
     s = pre ++ mid ++ post /\ length mid = 4%nat /\
     forallb is_digit mid = true /\ maskPhone s = pre ++ mask4 ++ post).
Proof.
  assert (Hshape :
    maskPhone s = s \/
    exists pre mid post,
      s = pre ++ mid ++ post /\ length mid = 4%nat /\
      forallb is_digit mid = true /\ maskPhone s = pre ++ mask4 ++ post).
  { destruct s as [|u s]; [now left|].
    change (maskPhone (u :: s)) with (replace_phone (u :: s)).
    destruct (replace_phone_shape (u :: s))
      as [Heq|(pre & d & post & Hs & Hlen & Hdig & Heq)]; [now left|].
    right. rewrite Heq, Hs. clear Hs Heq.
    destruct d as [|d0 [|d1 [|d2 [|d3 [|d4 [|d5 [|d6 [|d7 [|d8 [|d9 [|d10 [|]]]]]]]]]]]];
      try discriminate.
    exists (pre ++ [d0; d1; d2]), [d3; d4; d5; d6], ([d7; d8; d9; d10] ++ post).
    cbn [forallb] in Hdig.
    repeat (apply andb_true_iff in Hdig as [? Hdig]).
    repeat split.
    - now rewrite <- !app_assoc.
    - cbn [forallb].
      repeat match goal with
             | Hd : is_digit ?x = true |- context [is_digit ?x] => rewrite Hd
             end.
      reflexivity.
    - now rewrite <- !app_assoc. }
  split; [|exact Hshape].
  destruct Hshape as [->|(pre & mid & post & -> & Hlen & _ & ->)];
    [reflexivity|].
  rewrite !length_app, Hlen. reflexivity.
Qed.

(** ** Sums of capacities that are not negative *)

Lemma nonnegative_cases (x : number) :
  nonnegative x = true <->
  (exists s, x = S754_zero s) \/ x = S754_infinity false \/
  (exists m e, x = S754_finite false m e).
Proof.
  destruct x as [s|[|]| |[|] m e]; unfold nonnegative; simpl; split;
    try discriminate; try reflexivity; eauto;
    intros [(s' & Hs)|[Hs|(m' & e' & Hs)]]; discriminate.
Qed.

Lemma zero_sound_nonnegative : sound_nonnegative zero.
Proof. repeat split. Qed.

Lemma binary_round_sound_nonnegative (p : positive) (ez : Z) :
  emin <= ez -> sound_nonnegative (binary_round prec emax false p ez).
Proof.
  intros He. pose proof (binary_round_valid false p ez He) as Hv.
  destruct (binary_round_shape false p ez He) as [Hr|(m & e & Hr & Hm)];
    rewrite Hr in *; repeat split; assumption.
Qed.

Lemma add_sound_nonnegative (x y : number) :
  sound_nonnegative x -> sound_nonnegative y -> sound_nonnegative (add x y).
Proof.
  intros (Cx & Vx & Nx) (Cy & Vy & Ny).
  apply nonnegative_cases in Nx as [(sx & ->)|[->|(mx & ex & ->)]];
    apply nonnegative_cases in Ny as [(sy & ->)|[->|(my & ey & ->)]];
    try (repeat split; assumption);
    try (destruct sx, sy; repeat split; fail).
  rewrite add_finite. simpl in Cx, Cy.
  pose proof (scaled_positive mx ex (Z.min ex ey) (Z.le_min_l _ _)).
  pose proof (scaled_positive my ey (Z.min ex ey) (Z.le_min_r _ _)).
  destruct (_ + _) as [|p|p] eqn:Ez; try lia.
  cbn [binary_normalize]. apply binary_round_sound_nonnegative. lia.
Qed.

Lemma fold_add_sound_nonnegative (caps : list number) (x : number) :
  sound_nonnegative x -> Forall sound_nonnegative caps ->
  sound_nonnegative (fold_left add caps x).
Proof.
  revert x. induction caps as [|y caps IH]; intros x Hx Hcaps; simpl;
    [assumption|].
  inversion Hcaps as [|? ? Hy Hrest]; subst.
  apply IH; [now apply add_sound_nonnegative | assumption].
Qed.

(** ** No [NaN] in the table *)

Section SoundSums.

Context `{Builtins}.

Lemma plausible_sound (c : Customer) :
  plausible_capacity c -> sound_nonnegative (cap_of c).
Proof.
  intros [Hf Hn]. repeat split; [|now apply is_finite_valid|assumption].
  now apply is_finite_comparable.
Qed.

Lemma sum_caps_sound (cs : list Customer) :
  Forall plausible_capacity cs -> sound_nonnegative (sum_caps cs).
Proof.
  intros Hcs. apply fold_add_sound_nonnegative; [apply zero_sound_nonnegative|].
  apply Forall_map. eapply Forall_impl; [|exact Hcs]. apply plausible_sound.
Qed.

Lemma sum_caps_comparable (cs : list Customer) :
  Forall (fun c => is_finite (cap_of c) = true) cs ->
  is_nan (sum_caps cs) = false.
Proof.
  intros Hcs.
  assert (Hc : comparable (sum_caps cs)).
  { apply fold_add_comparable; [exact I | reflexivity |].
    apply Forall_map. exact Hcs. }
  now destruct (sum_caps cs).
Qed.

Lemma Forall_filter_of {A} (P : A -> Prop) (f : A -> bool) (l : list A) :
  Forall P l -> Forall P (filter f l).
Proof.
  intros Hl. apply Forall_forall. intros a Ha.
  apply filter_In in Ha as [Ha _]. rewrite Forall_forall in Hl. auto.
Qed.

Lemma stat_entry_sums (l : list Customer) (r : RegionStat.t) :
  In r (newRegionStats l) ->
  let cs := customers_of (RegionStat.city r) l in
  cs <> [] /\
  RegionStat.site_count r = length cs /\
  RegionStat.total_mw r = sum_caps cs /\
  forall cat, category_mw cat (stat_entry r)
              = sum_caps (filter (in_category cat) cs).
Proof.
  intros Hr cs. destruct (region_stat_entry l r Hr) as [Hne He]. fold cs in He.
  change (RegionStat.site_count r) with (site_count (stat_entry r)).
  change (RegionStat.total_mw r) with (total_mw (stat_entry r)).
  rewrite He. repeat split; [assumption| | |].
  - rewrite bump_all_site_count. simpl. lia.
  - now rewrite bump_all_total.
  - intros cat. now rewrite bump_all_category, category_new_entry.
Qed.

(** X9: when the coerced capacities are finite numbers, no region stat has
    [NaN] as its total or as one of its four category sums, whatever the
    signs and sizes of the capacities (a sum that overflows is an infinity).
    When none of the capacities is negative either, the total, the four
    category sums and the sum of the four that orders the chart are all
    greater than or equal to 0, the last one not being [NaN] in particular. *)
Theorem sums_are_numbers (l : list Customer) :
  Forall (fun c => is_finite (cap_of c) = true) l ->
  forall r, In r (newRegionStats l) ->
    (is_nan (RegionStat.total_mw r) = false /\
     forall cat, is_nan (category_mw cat (stat_entry r)) = false) /\
    (Forall (fun c => nonnegative (cap_of c) = true) l ->
     nonnegative (RegionStat.total_mw r) = true /\
     (forall cat, nonnegative (category_mw cat (stat_entry r)) = true) /\
     nonnegative (four_sum (stat_entry r)) = true).
Proof.
  intros Hfin r Hr.
  destruct (stat_entry_sums l r Hr) as (_ & _ & Htot & Hcat).
  set (cs := customers_of (RegionStat.city r) l) in *.
  assert (Hcs : Forall (fun c => is_finite (cap_of c) = true) cs)
    by now apply Forall_filter_of.
  split.
  - split.
    + rewrite Htot. now apply sum_caps_comparable.
    + intros cat. rewrite Hcat. apply sum_caps_comparable.
      now apply Forall_filter_of.
  - intros Hnn.
    assert (Hpl : Forall plausible_capacity cs).
    { apply Forall_filter_of. apply Forall_forall. intros c Hc.
      rewrite Forall_forall in Hfin, Hnn. split; auto. }
    assert (Hsound : forall cat,
              sound_nonnegative (category_mw cat (stat_entry r))).
    { intros cat. rewrite Hcat. apply sum_caps_sound.
      now apply Forall_filter_of. }
    split; [|split].
    + rewrite Htot. now apply sum_caps_sound.
    + intros cat. apply Hsound.
    + unfold four_sum.
      repeat apply add_sound_nonnegative;
        [apply (Hsound Solar) | apply (Hsound Storage)
        | apply (Hsound Charging) | apply (Hsound Other)].
Qed.

Lemma chart_sum_sound (l : list Customer) (p : ChartDataPoint.t) :
  Forall plausible_capacity l ->
  In p (map to_chart_point (group_by_city l)) ->
  sound_nonnegative (chart_sum p).
Proof.
  intros Hpl Hp. apply in_map_iff in Hp as ([k e] & <- & Hin).
  destruct (group_by_city_entry l k e Hin) as [_ ->].
  change (chart_sum (to_chart_point (k, ?e))) with (four_sum e).
  assert (Hsound : forall cat,
            sound_nonnegative
              (category_mw cat (bump_all (customers_of k l) new_entry))).
  { intros cat. rewrite bump_all_category, category_new_entry.
    apply (sum_caps_sound (filter (in_category cat) (customers_of k l))).
    now do 2 apply Forall_filter_of. }
  unfold four_sum.
  repeat apply add_sound_nonnegative;
    [apply (Hsound Solar) | apply (Hsound Storage)
    | apply (Hsound Charging) | apply (Hsound Other)].
Qed.

(** X10: when the coerced capacities are finite numbers none of which is
    negative, the chart data come out in descending order of
    [pv + storage + ev + other]: the sum of each point is greater than or
    equal to the sum of the next. *)
Theorem chart_data_sorted_desc (l : list Customer) :
  Forall plausible_capacity l -> Sorted chart_ge (newChartData l).
Proof.
  intros Hpl. rewrite newChartData_eq.
  apply sort_sorted with (ok := fun p => sound_nonnegative (chart_sum p)).
  - intros a b (Ca & Va & _) (Cb & Vb & _) Hp. unfold chart_ge, ge.
    unfold by_sum_desc in Hp.
    rewrite <- leb_SFleb by assumption. now apply sub_not_positive_leb.
  - intros a b (Ca & Va & _) (Cb & Vb & _) Hp. unfold chart_ge, ge.
    unfold by_sum_desc in Hp.
    rewrite <- leb_SFleb by assumption. now apply sub_positive_leb.
  - apply Forall_forall. intros p Hp. now apply (chart_sum_sound l).
Qed.

Lemma total_not_nan (l : list Customer) :
  Forall (fun c => is_finite (cap_of c) = true) l ->
  forall r, In r (newRegionStats l) -> is_nan (RegionStat.total_mw r) = false.
Proof.
  intros Hfin r Hr. destruct (stat_entry_sums l r Hr) as (_ & _ & Htot & _).
  rewrite Htot. apply sum_caps_comparable. now apply Forall_filter_of.
Qed.

Lemma chart_sum_not_nan (l : list Customer) :
  Forall plausible_capacity l ->
  forall p, In p (newChartData l) -> is_nan (chart_sum p) = false.
Proof.
  intros Hpl p Hp. rewrite newChartData_eq in Hp.
  apply (Permutation_in _ (sort_perm _ _)) in Hp.
  destruct (chart_sum_sound l p Hpl Hp) as (Hc & _).
  now destruct (chart_sum p).
Qed.

End SoundSums.

(** One site of 50 MW: its total is a number. *)
Lemma sums_are_numbers_witness :
  is_nan (RegionStat.total_mw one_site_stat) = false.
Proof.
  refine (proj1 (proj1 (@sums_are_numbers integer_builtins one_site _
                          one_site_stat _))).
  - repeat constructor.
  - left. reflexivity.
Defined.

Lemma chart_data_sorted_desc_witness :
  Sorted chart_ge (@newChartData integer_builtins three_cities).
Proof.
  refine (@chart_data_sorted_desc integer_builtins three_cities _).
  repeat constructor.
Defined.

(** ** What the aggregation reads *)

Section ReadsOnly.

Context `{Builtins}.

Lemma accumulate_fields (m : CityMap.t) (c c' : Customer) :
  aggregated_fields c = aggregated_fields c' ->
  accumulate m c = accumulate m c'.
Proof.
  unfold aggregated_fields, accumulate. intros [= -> -> ->]. reflexivity.
Qed.

Lemma fold_accumulate_fields (l l' : list Customer) (m : CityMap.t) :
  map aggregated_fields l = map aggregated_fields l' ->
  fold_left accumulate l m = fold_left accumulate l' m.
Proof.
  revert l' m. induction l as [|c l IH]; intros [|c' l'] m Heq;
    try discriminate; [reflexivity|].
  simpl in Heq. injection Heq as Hcity Hcap Htype Hl. simpl.
  rewrite (accumulate_fields m c c')
    by (unfold aggregated_fields; congruence).
  now apply IH.
Qed.

(** X11: the region stats and the chart data depend on nothing but the
    city, the coerced capacity and the demand type of each customer: two
    customer lists that agree on these, customer by customer, give the same
    region stats and the same chart data. Names, contacts and phones never
    reach the aggregates, and capacities that coerce to the same number
    (absent, [NaN], [null], 0, -0) are interchangeable. *)
Theorem aggregates_read_three_fields (l l' : list Customer) :
  map aggregated_fields l = map aggregated_fields l' ->
  newRegionStats l = newRegionStats l' /\ newChartData l = newChartData l'.
Proof.
  intros Heq. rewrite !newRegionStats_eq, !newChartData_eq.
  unfold group_by_city. now rewrite (fold_accumulate_fields l l' [] Heq).
Qed.

End ReadsOnly.

(** The customer without a capacity counts as one with a capacity of -0. *)
Lemma aggregates_read_three_fields_witness :
  @newRegionStats integer_builtins [no_capacity_customer]
  = @newRegionStats integer_builtins
      [mkCustomer [57] [66] [] hangzhou (JSnumber (S754_zero true))
                  solar_marker [67] [68] phone_11].
Proof.
  exact (proj1 (@aggregates_read_three_fields integer_builtins
                  [no_capacity_customer]
                  [mkCustomer [57] [66] [] hangzhou (JSnumber (S754_zero true))
                              solar_marker [67] [68] phone_11]
                  eq_refl)).
Defined.

(** ** The order of the customers *)

Lemma Permutation_filter_length {A} (f : A -> bool) (l l' : list A) :
  Permutation l l' -> length (filter f l) = length (filter f l').
Proof.
  induction 1 as [|a l l' _ IH|a b l|l1 l2 l3 _ IH1 _ IH2]; simpl.
  - reflexivity.
  - destruct (f a); simpl; congruence.
  - destruct (f a), (f b); reflexivity.
  - congruence.
Qed.

Section OrderOfCustomers.

Context `{Builtins}.

Lemma region_stats_city_In (l : list Customer) k :
  In k (map RegionStat.city (newRegionStats l)) <-> In k (map city l).
Proof.
  split; intros Hk.
  - apply (Permutation_in _ (region_stats_cities l)) in Hk.
    apply fold_accumulate_In in Hk as [[]|Hk]. exact Hk.
  - apply (Permutation_in _ (Permutation_sym (region_stats_cities l))).
    apply fold_accumulate_In. now right.
Qed.

(** X12: the order of the customers changes neither which cities have a
    region stat nor their site counts: for two lists with the same
    customers in different orders, every region stat of the one has a
    region stat of the other with the same city and the same site count,
    and there are as many region stats and as many sites in total. *)
Theorem site_counts_ignore_order (l l' : list Customer) :
  Permutation l l' ->
  length (newRegionStats l) = length (newRegionStats l') /\
  stat_sites (newRegionStats l) = stat_sites (newRegionStats l') /\
  forall r, In r (newRegionStats l) ->
    exists r', In r' (newRegionStats l') /\
      RegionStat.city r' = RegionStat.city r /\
      RegionStat.site_count r' = RegionStat.site_count r.
Proof.
  intros Hperm.
  assert (Hcities : forall k, In k (map RegionStat.city (newRegionStats l)) <->
                              In k (map RegionStat.city (newRegionStats l'))).
  { intros k. rewrite !region_stats_city_In.
    split; apply Permutation_in; [|symmetry]; now apply Permutation_map. }
  split; [|split].
  - rewrite <- (length_map RegionStat.city (newRegionStats l)).
    rewrite <- (length_map RegionStat.city (newRegionStats l')).
    apply Permutation_length. apply NoDup_Permutation; [| |exact Hcities].
    + eapply Permutation_NoDup; [symmetry; apply region_stats_cities|].
      apply group_by_city_NoDup.
    + eapply Permutation_NoDup; [symmetry; apply region_stats_cities|].
      apply group_by_city_NoDup.
  - rewrite !region_stats_sites. now apply Permutation_length.
  - intros r Hr.
    assert (Hk : In (RegionStat.city r)
                    (map RegionStat.city (newRegionStats l')))
      by (apply Hcities; now apply in_map).
    apply in_map_iff in Hk as (r' & Hcity & Hr').
    exists r'. repeat split; [assumption..|].
    destruct (region_stat_entry l r Hr) as [_ He].
    destruct (region_stat_entry l' r' Hr') as [_ He'].
    change (site_count (stat_entry r') = site_count (stat_entry r)).
    rewrite He, He', !bump_all_site_count, Hcity. f_equal.
    symmetry. now apply Permutation_filter_length.
Qed.

End OrderOfCustomers.

Lemma site_counts_ignore_order_witness :
  length (@newRegionStats integer_builtins rounding_customers)
  = length (@newRegionStats integer_builtins (rev rounding_customers)).
Proof.
  refine (proj1 (@site_counts_ignore_order integer_builtins rounding_customers
                   (rev rounding_customers) _)).
  apply Permutation_rev.
Defined.

(** ** Rows, cities and ties *)

Lemma has_existsb (m : CityMap.t) k :
  CityMap.has m k = existsb (fun k' => JsString.eqb k' k) (map fst m).
Proof.
  unfold CityMap.has. induction m as [|[k' v] m IH]; simpl; [reflexivity|].
  destruct (JsString.eqb k' k); simpl; [reflexivity | exact IH].
Qed.

Lemma number_eqb_eq (x y : number) : number_eqb x y = true -> x = y.
Proof.
  destruct x as [s|s| |s m e], y as [t|t| |t n f]; simpl; try discriminate;
    try reflexivity.
  - intros Hs. apply Bool.eqb_prop in Hs. congruence.
  - intros Hs. apply Bool.eqb_prop in Hs. congruence.
  - intros Hs. apply andb_true_iff in Hs as [Hs He].
    apply andb_true_iff in Hs as [Hs Hm].
    apply Bool.eqb_prop in Hs. apply Pos.eqb_eq in Hm. apply Z.eqb_eq in He.
    congruence.
Qed.

Lemma sub_self_not_positive (x : number) : is_positive (sub x x) = false.
Proof.
  destruct x as [[|]|[|]| |s m e]; try reflexivity.
  rewrite sub_finite, Z.sub_diag. reflexivity.
Qed.

Section Stable.

Context {A : Type}.
Variable comparefn : A -> A -> number.
Variable P : A -> bool.

Lemma sort_insert_filter (a : A) (s : list A) :
  (forall b, In b s -> P a = true -> P b = true ->
             is_positive (comparefn a b) = false) ->
  filter P (sort_insert comparefn a s) = filter P (a :: s).
Proof.
  induction s as [|b s IH]; intros Hcmp; [reflexivity|].
  cbn [sort_insert].
  destruct (is_positive (comparefn a b)) eqn:E; [|reflexivity].
  cbn [filter]. rewrite IH by (intros c Hc; apply Hcmp; now right).
  cbn [filter].
  destruct (P a) eqn:Pa, (P b) eqn:Pb; try reflexivity.
  rewrite (Hcmp b (or_introl eq_refl) eq_refl Pb) in E. discriminate.
Qed.

(** Elements that the comparator never places after one another keep their
    order. *)
Lemma sort_stable (l : list A) :
  (forall a b, In a l -> In b l -> P a = true -> P b = true ->
               is_positive (comparefn a b) = false) ->
  filter P (sort comparefn l) = filter P l.
Proof.
  induction l as [|a l IH]; intros Hcmp; [reflexivity|].
  cbn [sort]. rewrite sort_insert_filter.
  - cbn [filter]. rewrite IH by (intros; apply Hcmp; now try right).
    reflexivity.
  - intros b Hb. apply Hcmp; [now left | right].
    now apply (Permutation_in _ (sort_perm comparefn l)).
Qed.

End Stable.

Section RowsAndTies.

Context `{Builtins}.

Lemma fold_accumulate_keys (l : list Customer) (m : CityMap.t) :
  map fst (fold_left accumulate l m)
  = map fst m ++ first_occurrences (map fst m) (map city l).
Proof.
  revert m. induction l as [|c l IH]; intros m; simpl.
  - now rewrite app_nil_r.
  - rewrite IH, accumulate_keys, <- has_existsb.
    destruct (CityMap.has m (city c)); [reflexivity|].
    now rewrite <- app_assoc.
Qed.

Lemma unsorted_stats_cities (l : list Customer) :
  map RegionStat.city (unsorted_stats l) = first_occurrences [] (map city l).
Proof.
  unfold unsorted_stats, CityMap.entries. rewrite map_map.
  rewrite (map_ext _ fst) by now intros [k e].
  apply (fold_accumulate_keys l []).
Qed.

(** X13: before they are sorted the region stats stand in the order in
    which their cities first appear among the customers. When the coerced
    capacities are finite numbers, so that no total is [NaN], sorting keeps
    that order among the region stats with one and the same total; when none
    of them is negative either, so that no chart sum is [NaN], sorting keeps
    it among the chart points with one and the same sum of their four
    values. *)
Theorem ties_keep_first_appearance (l : list Customer) :
  map RegionStat.city (unsorted_stats l) = first_occurrences [] (map city l) /\
  (Forall (fun c => is_finite (cap_of c) = true) l ->
   (forall r, In r (newRegionStats l) ->
              is_nan (RegionStat.total_mw r) = false) /\
   (forall t, filter (total_is t) (newRegionStats l)
              = filter (total_is t) (unsorted_stats l))) /\
  (Forall plausible_capacity l ->
   (forall p, In p (newChartData l) -> is_nan (chart_sum p) = false) /\
   (forall t, filter (fun p => number_eqb (chart_sum p) t) (newChartData l)
              = filter (fun p => number_eqb (chart_sum p) t)
                       (map stat_point (unsorted_stats l)))).
Proof.
  split; [apply unsorted_stats_cities|]. split; intros Hl; split.
  - intros r Hr. apply (total_not_nan l Hl r Hr).
  - intros t. rewrite newRegionStats_eq. apply sort_stable.
    intros a b _ _ Ha Hb. unfold total_is in *.
    apply number_eqb_eq in Ha, Hb. unfold by_total_desc. rewrite Ha, Hb.
    apply sub_self_not_positive.
  - intros p Hp. apply (chart_sum_not_nan l Hl p Hp).
  - intros t. rewrite newChartData_eq, chart_points_of_stats. apply sort_stable.
    intros a b _ _ Ha Hb.
    apply number_eqb_eq in Ha, Hb. unfold by_sum_desc. rewrite Ha, Hb.
    apply sub_self_not_positive.
Qed.

Lemma chart_data_names (l : list Customer) :
  Permutation (map ChartDataPoint.name (newChartData l))
              (map fst (group_by_city l)).
Proof.
  rewrite newChartData_eq.
  rewrite (Permutation_map ChartDataPoint.name (sort_perm _ _)).
  rewrite map_map. apply Permutation_refl'. apply map_ext. now intros [k e].
Qed.

Lemma first_occurrences_length (seen l : list jsstring) :
  (length (first_occurrences seen l) <= length l)%nat.
Proof.
  revert seen. induction l as [|k l IH]; intros seen; simpl; [lia|].
  destruct (existsb _ seen); simpl; [specialize (IH seen) |
                                    specialize (IH (seen ++ [k]))]; lia.
Qed.

(** X14: the table and the chart have one row each per distinct city of the
    customers, no more than there are customers, and none when and only when
    there are no customers; every region stat counts at least one site, and
    the chart names each city of the customers once. *)
Theorem one_row_per_city (l : list Customer) :
  length (newRegionStats l) = length (first_occurrences [] (map city l)) /\
  length (newChartData l) = length (newRegionStats l) /\
  (length (newRegionStats l) <= length l)%nat /\
  (newRegionStats l = [] <-> l = []) /\
  (newChartData l = [] <-> l = []) /\
  (forall r, In r (newRegionStats l) -> (1 <= RegionStat.site_count r)%nat) /\
  NoDup (map ChartDataPoint.name (newChartData l)) /\
  (forall k, In k (map ChartDataPoint.name (newChartData l))
             <-> In k (map city l)).
Proof.
  assert (Hlen : length (newRegionStats l)
                 = length (first_occurrences [] (map city l))).
  { rewrite <- unsorted_stats_cities, length_map.
    rewrite newRegionStats_eq. apply (Permutation_length (sort_perm _ _)). }
  assert (Hnil : newRegionStats l = [] <-> l = []).
  { split; [|now intros ->]. intros Hs. apply length_zero_iff_nil.
    now rewrite <- region_stats_sites, Hs. }
  split; [assumption|]. split; [apply chart_data_length|].
  split; [|split; [assumption|split; [|split; [|split]]]].
  - rewrite Hlen. pose proof (first_occurrences_length [] (map city l)) as Hle.
    now rewrite length_map in Hle.
  - rewrite <- Hnil. rewrite <- !length_zero_iff_nil.
    now rewrite chart_data_length.
  - intros r Hr. destruct (region_stat_entry l r Hr) as [Hne He].
    change (RegionStat.site_count r) with (site_count (stat_entry r)).
    rewrite He, bump_all_site_count.
    destruct (customers_of (RegionStat.city r) l); [contradiction|simpl; lia].
  - eapply Permutation_NoDup; [symmetry; apply chart_data_names|].
    apply group_by_city_NoDup.
  - intros k. split; intros Hk.
    + apply (Permutation_in _ (chart_data_names l)) in Hk.
      apply fold_accumulate_In in Hk as [[]|Hk]. exact Hk.
    + apply (Permutation_in _ (Permutation_sym (chart_data_names l))).
      apply fold_accumulate_In. now right.
Qed.

End RowsAndTies.

(** Cities B and A with 10 MW each and city C with 30 MW: B stays before A
    in the table and in the chart. *)
Lemma ties_keep_first_appearance_witness :
  map RegionStat.city
      (filter (total_is (decimal 10 0))
              (@newRegionStats integer_builtins tied_cities))
  = [[66]; [65]] /\
  map ChartDataPoint.name
      (filter (fun p => number_eqb (chart_sum p) (decimal 10 0))
              (@newChartData integer_builtins tied_cities))
  = [[66]; [65]].
Proof.
  destruct (@ties_keep_first_appearance integer_builtins tied_cities)
    as (_ & Htotal & Hsum).
  assert (Hfin : Forall (fun c => is_finite (@cap_of integer_builtins c) = true)
                        tied_cities) by (repeat constructor).
  assert (Hpl : Forall (@plausible_capacity integer_builtins) tied_cities)
    by (repeat constructor).
  split.
  - rewrite (proj2 (Htotal Hfin) (decimal 10 0)). reflexivity.
  - rewrite (proj2 (Hsum Hpl) (decimal 10 0)). reflexivity.
Defined.

(** ** One registration, one row *)

Section OneRow.

Context `{Builtins}.

(** X15: putting one more customer in front of the customer set, as a
    failed insert does, touches the row of its city only: the region stats
    of all other cities are the same before and after, field for field. In
    the row of its city the new capacity is the first term of the total and
    of the sum of its category. *)
Theorem new_customer_touches_one_row (c : Customer) (l : list Customer) :
  (forall r, RegionStat.city r <> city c ->
     (In r (newRegionStats (c :: l)) <-> In r (newRegionStats l))) /\
  (forall r, In r (newRegionStats (c :: l)) -> RegionStat.city r = city c ->
     let cs := customers_of (city c) l in
     RegionStat.site_count r = S (length cs) /\
     RegionStat.total_mw r
     = fold_left add (map cap_of cs) (add zero (cap_of c)) /\
     category_mw (category_of (type_of c)) (stat_entry r)
     = fold_left add
         (map cap_of (filter (in_category (category_of (type_of c))) cs))
         (add zero (cap_of c))).
Proof.
  split.
  - intros r Hne. rewrite !region_stat_iff.
    now rewrite customers_of_cons_other by congruence.
  - intros r Hr Hcity cs. destruct (region_stat_entry _ r Hr) as [_ He].
    rewrite Hcity in He. unfold customers_of in He. cbn [filter] in He.
    rewrite jsstring_eqb_refl in He. fold (customers_of (city c) l) in He.
    fold cs in He.
    change (RegionStat.site_count r) with (site_count (stat_entry r)).
    change (RegionStat.total_mw r) with (total_mw (stat_entry r)).
    rewrite He. repeat split.
    + rewrite bump_all_site_count. simpl. lia.
    + now rewrite bump_all_total.
    + rewrite bump_all_category. cbn [filter map fold_left].
      unfold in_category at 1.
      assert (Heqb : forall cat, category_eqb cat cat = true)
        by now intros [].
      rewrite Heqb. cbn [map fold_left].
      now rewrite category_new_entry.
Qed.

Lemma chart_point_of_stat (l : list Customer) (p : ChartDataPoint.t) :
  In p (newChartData l) ->
  exists r, In r (newRegionStats l) /\ p = stat_point r.
Proof.
  rewrite newChartData_eq, chart_points_of_stats. intros Hp.
  apply (Permutation_in _ (sort_perm _ _)) in Hp.
  apply in_map_iff in Hp as (r & <- & Hr). exists r. split; [|reflexivity].
  now apply (Permutation_in _ (Permutation_sym (region_stats_perm l))).
Qed.

Lemma solar_badge_counted (c : Customer) :
  solar_badge c = counted_as_solar c.
Proof.
  unfold solar_badge, counted_as_solar, has_marker, type_of, or_empty.
  now destruct (demand_type c).
Qed.

(** X16: the solar colours of the type badge in the customer table and the
    solar sum of the aggregation go together: every customer is counted in
    the row of its city, and [pv_mw] of a row of the region stats, like [pv]
    of a point of the chart, is the sum of the coerced capacities of exactly
    those customers of the city that the table shows with the solar
    colours. *)
Theorem solar_badge_matches_category (l : list Customer) :
  (forall c, In c l ->
     exists r, In r (newRegionStats l) /\ RegionStat.city r = city c /\
               In c (customers_of (RegionStat.city r) l)) /\
  (forall r, In r (newRegionStats l) ->
     RegionStat.pv_mw r
     = sum_caps (filter solar_badge (customers_of (RegionStat.city r) l))) /\
  (forall p, In p (newChartData l) ->
     ChartDataPoint.pv p
     = sum_caps (filter solar_badge (customers_of (ChartDataPoint.name p) l))).
Proof.
  assert (Hrow : forall r, In r (newRegionStats l) ->
            RegionStat.pv_mw r
            = sum_caps (filter solar_badge
                          (customers_of (RegionStat.city r) l))).
  { intros r Hr.
    change (RegionStat.pv_mw r) with (category_mw Solar (stat_entry r)).
    rewrite (region_stat_category l r Solar Hr). f_equal.
    apply filter_ext. intros c. rewrite solar_badge_counted.
    apply (in_category_counted c). }
  split; [|split; [exact Hrow|]].
  - intros c Hc. destruct (region_stat_of_customer l c Hc) as (r & Hr & Hk).
    exists r. split; [exact Hr|]. split; [exact Hk|].
    rewrite Hk. now apply customers_of_In.
  - intros p Hp. destruct (chart_point_of_stat l p Hp) as (r & Hr & ->).
    apply (Hrow r Hr).
Qed.

End OneRow.

(** ** From the rows to the table *)

Section RowsToTable.

Context `{Builtins}.
Variable MOCK_CUSTOMERS : list Customer.

Lemma cap_of_map_row (d : Row) :
  cap_of (map_row d) = or_zero (Number (row_capacity_mw d)).
Proof. reflexivity. Qed.

(** X17: a capacity that the fetch keeps as [NaN] does no harm further on:
    when each row's capacity coerces to a finite number or to [NaN], the
    region stats computed from the fetched customers have no [NaN] total,
    and a row whose capacity is [NaN] counts for its city as a site of
    capacity 0. *)
Theorem fetched_nan_counts_as_zero (rows : list Row) (st : AppState) :
  rows <> [] ->
  Forall (fun d => is_nan (Number (row_capacity_mw d)) = true \/
                   is_finite (Number (row_capacity_mw d)) = true) rows ->
  let cs := customers (fetchCustomers MOCK_CUSTOMERS
                         (Resolved (Some rows) None) st) in
  (forall r, In r (newRegionStats cs) -> is_nan (RegionStat.total_mw r) = false)
  /\ stat_sites (newRegionStats cs) = length rows
  /\ (forall d, In d rows -> is_nan (Number (row_capacity_mw d)) = true ->
        In (map_row d) cs /\ cap_of (map_row d) = zero).
Proof.
  intros Hrows Hcaps cs.
  assert (Hcs : cs = map map_row rows)
    by (destruct rows; [contradiction | reflexivity]).
  rewrite Hcs. split; [|split].
  - intros r Hr. destruct (region_stat_entry _ r Hr) as [_ He].
    change (RegionStat.total_mw r) with (total_mw (stat_entry r)).
    rewrite He, bump_all_total.
    assert (Hc : comparable
                   (fold_left add
                      (map cap_of (customers_of (RegionStat.city r)
                                                (map map_row rows)))
                      (total_mw new_entry))).
    { apply fold_add_comparable; [exact I | reflexivity |].
      apply Forall_map. apply Forall_forall. intros c Hc.
      apply filter_In in Hc as [Hc _]. apply in_map_iff in Hc as (d & <- & Hd).
      rewrite Forall_forall in Hcaps. rewrite cap_of_map_row.
      destruct (Hcaps d Hd) as [Hn|Hf].
      - now rewrite (or_zero_nan _ Hn).
      - now destruct (Number (row_capacity_mw d)). }
    now destruct (fold_left _ _ _).
  - now rewrite region_stats_sites, length_map.
  - intros d Hd Hn. split; [now apply in_map|].
    rewrite cap_of_map_row. now apply or_zero_nan.
Qed.

(** X18: the address and the e-mail of the form are sent to the remote
    store only: when the insert fails, the state the shell is left in is the
    same whatever address and e-mail were typed. *)
Theorem local_customer_drops_address (inserted : Response unit)
    (refetched : Response (list Row)) (random_id : jsstring)
    (data : FormData) (address' email' : jsstring) (st : AppState) :
  failed inserted ->
  handleNewRegistration MOCK_CUSTOMERS inserted refetched random_id
    (mkFormData (companyName data) (province_field data) (city_field data)
                address' (capacity data) (demandType data)
                (demandTypeOther data) (industryType data) (contactName data)
                (contactPhone data) email') st
  = handleNewRegistration MOCK_CUSTOMERS inserted refetched random_id data st.
Proof.
  intros Hfail. now rewrite !failed_insert_customers by assumption.
Qed.

End RowsToTable.

(** A site of Ningbo in front of the site of Hangzhou: the row of Hangzhou
    is as before. *)
Lemma new_customer_touches_one_row_witness :
  In hangzhou_stat
     (@newRegionStats integer_builtins (ningbo_customer :: sample_mock)).
Proof.
  refine (proj2 (proj1 (@new_customer_touches_one_row integer_builtins
                          ningbo_customer sample_mock) hangzhou_stat _) _).
  - discriminate.
  - left. reflexivity.
Defined.

(** Two rows, the second without a capacity: two sites are counted. *)
Lemma fetched_nan_counts_as_zero_witness :
  stat_sites (@newRegionStats integer_builtins
                (customers (@fetchCustomers integer_builtins sample_mock
                              (Resolved (Some sample_rows) None) sample_state)))
  = 2%nat.
Proof.
  refine (proj1 (proj2 (@fetched_nan_counts_as_zero integer_builtins
                          sample_mock sample_rows sample_state _ _))).
  - discriminate.
  - constructor; [right; reflexivity|].
    constructor; [left; reflexivity | constructor].
Defined.

(** The insert throws: the address typed makes no difference. *)
Lemma local_customer_drops_address_witness :
  @handleNewRegistration integer_builtins sample_mock Threw Threw [48]
    (mkFormData [] [] ningbo [65] [49; 50] other_type [] [] [] phone_11 [66])
    sample_state
  = @handleNewRegistration integer_builtins sample_mock Threw Threw [48]
      sample_form sample_state.
Proof.
  exact (@local_customer_drops_address integer_builtins sample_mock Threw Threw
           [48] sample_form [65] [66] sample_state I).
Defined.

(** ** A registration in whole megawatts *)

Section WholeRegistration.

Context `{Builtins}.

(** X19: when the capacities of a city, the one of a customer newly put in
    front included, are whole numbers of megawatts that add up to less than
    2^53, the new total of the city is exactly its former total plus the new
    capacity, and the new capacity itself if the city had no customer. *)
Theorem whole_registration_adds_capacity (c : Customer) (l : list Customer)
    (mw : Customer -> Z) :
  let cs := customers_of (city c) l in
  (forall c', In c' (c :: cs) -> 0 <= mw c' /\ cap_of c' = whole (mw c')) ->
  sum_Z (map mw (c :: cs)) < 2 ^ 53 ->
  forall r, In r (newRegionStats (c :: l)) -> RegionStat.city r = city c ->
    (forall r0, In r0 (newRegionStats l) -> RegionStat.city r0 = city c ->
       RegionStat.total_mw r = add (RegionStat.total_mw r0) (cap_of c)) /\
    (cs = [] -> RegionStat.total_mw r = cap_of c).
Proof.
  intros cs Hmw Hsum r Hr Hcity.
  assert (Hnew : RegionStat.total_mw r = sum_caps (c :: cs)).
  { destruct (stat_entry_sums _ r Hr) as (_ & _ & Htot & _).
    rewrite Htot, Hcity. unfold customers_of. cbn [filter].
    now rewrite jsstring_eqb_refl. }
  assert (Hc : 0 <= mw c /\ cap_of c = whole (mw c)) by (apply Hmw; now left).
  assert (Hcs : forall c', In c' cs -> 0 <= mw c' /\ cap_of c' = whole (mw c'))
    by (intros c' Hc'; apply Hmw; now right).
  assert (Hnn : 0 <= sum_Z (map mw cs))
    by (apply sum_Z_nonneg; intros c' Hc'; now apply Hcs).
  change (sum_Z (map mw (c :: cs))) with (mw c + sum_Z (map mw cs)) in Hsum.
  change (2 ^ 53) with (2 ^ prec) in Hsum.
  rewrite Hnew, (sum_caps_whole mw (c :: cs) Hmw)
    by (change (sum_Z (map mw (c :: cs))) with (mw c + sum_Z (map mw cs)); lia).
  change (sum_Z (map mw (c :: cs))) with (mw c + sum_Z (map mw cs)).
  split.
  - intros r0 Hr0 Hcity0.
    destruct (stat_entry_sums _ r0 Hr0) as (_ & _ & Htot0 & _).
    rewrite Htot0, Hcity0. fold cs.
    rewrite (sum_caps_whole mw cs Hcs) by lia.
    destruct Hc as [Hc0 ->]. rewrite add_whole by lia. f_equal. lia.
  - intros Hnil. rewrite Hnil. destruct Hc as [_ ->]. simpl. f_equal. lia.
Qed.

End WholeRegistration.

(** A site of 50 MW registered in Ningbo, which had none: its total is 50. *)
Lemma whole_registration_adds_capacity_witness :
  RegionStat.total_mw one_site_stat = @cap_of integer_builtins ningbo_customer.
Proof.
  refine (proj2 (@whole_registration_adds_capacity integer_builtins
                   ningbo_customer sample_mock (fun _ => 50) _ _
                   one_site_stat _ _) _).
  - intros c' [<-|[]]. split; [lia | reflexivity].
  - reflexivity.
  - left. reflexivity.
  - reflexivity.
  - reflexivity.
Defined.
